(** * UDP relay of go-shadowsocks2 (udp.go): sessions, framing, teardown

    A shallow embedding of [udp.go].  Byte slices are [list byte], the
    64 KiB relay buffer is a list of length [udpBufSize], a nil slice or a
    nil interface value is [None], the NAT table is a finite map from the
    peer's textual address to its forwarding socket, and the goroutines of
    the three listeners are small transition systems whose steps are the
    statements between two synchronisation points. *)

From Stdlib Require Import ZArith Lia.
From Stdlib.Strings Require Import Byte Ascii String.
From stdpp Require Import base option list gmap strings.

Local Open Scope nat_scope.

(** ** Byte slices *)

Abbreviation bytes := (list byte).

#[global] Instance byte_eq_dec : EqDecision byte := Byte.byte_eq_dec.

(** [const udpBufSize = 64 * 1024] *)
Definition udpBufSize : nat := 64 * 1024.

(** Go's builtin [copy(dst, src)]: the first [min (len dst) (len src)]
    elements of [dst] are overwritten, the result is the new [dst]. *)
Definition go_copy (dst src : bytes) : bytes :=
  take (length dst) src ++ drop (length src) dst.

(** The slice expression [b[lo:hi]] on a slice whose length is its
    capacity; [None] is the run-time panic "slice bounds out of range". *)
Definition slice (b : bytes) (lo hi : nat) : option bytes :=
  if (lo <=? hi) && (hi <=? length b) then Some (take (hi - lo) (drop lo b))
  else None.

(** [copy(b[lo:], src)] seen from [b]: the region from [lo] on is
    overwritten.  [None] when [b[lo:]] itself is out of range. *)
Definition copy_at (b : bytes) (lo : nat) (src : bytes) : option bytes :=
  if lo <=? length b then Some (take lo b ++ go_copy (drop lo b) src)
  else None.

(** [src.ReadFrom(buf)]: a datagram with the given payload lands at the
    front of [buf]; the count returned is cut off at [len buf]. *)
Definition read_into (buf payload : bytes) : bytes * nat :=
  (go_copy buf payload, length payload `min` length buf).

(** ** The address codec (package [socks])

    [socks.ParseAddr] and [socks.SplitAddr] return a [socks.Addr], which is
    a byte slice, or nil.  The package is not part of [udp.go]; the relay
    is stated over any implementation of the two functions. *)

Class AddrCodec := {
  ParseAddr : string → option bytes;
  SplitAddr : bytes → option bytes
}.

(** [len(a)] and the bytes of [a] for a possibly nil [socks.Addr]. *)
Definition addr_len (a : option bytes) : nat := from_option length 0 a.
Definition addr_bytes (a : option bytes) : bytes := default [] a.

(** ** The copy loop [timedCopy] *)

(** [type mode int] with its three constants. *)
Inductive mode := remoteServer | relayClient | socksClient.

(** What one pass through the [switch role] hands to [dst.WriteTo], or the
    panic of an out-of-range slice expression. *)
Inductive framed :=
  | Write (datagram : bytes)
  | Panic.

Section Framing.
Context `{AddrCodec}.

(** [case remoteServer]: lines 305-308.  The buffer after the two copies
    is returned as well, it is reused by the next pass. *)
Definition frame_remoteServer (buf : bytes) (n : nat) (raddr : string)
  : bytes * framed :=
  let srcAddr := ParseAddr raddr in
  match slice buf 0 n with
  | None => (buf, Panic)
  | Some payload =>
    match copy_at buf (addr_len srcAddr) payload with
    | None => (buf, Panic)
    | Some buf1 =>
      let buf2 := go_copy buf1 (addr_bytes srcAddr) in
      match slice buf2 0 (addr_len srcAddr + n) with
      | Some d => (buf2, Write d)
      | None => (buf2, Panic)
      end
    end
  end.

(** [case relayClient]: lines 310-311. *)
Definition frame_relayClient (buf : bytes) (n : nat) : bytes * framed :=
  match slice buf 0 n with
  | None => (buf, Panic)
  | Some d =>
    let srcAddr := SplitAddr d in
    match slice buf (addr_len srcAddr) n with
    | Some out => (buf, Write out)
    | None => (buf, Panic)
    end
  end.

(** [case socksClient]: line 313. *)
Definition frame_socksClient (buf : bytes) (n : nat) : bytes * framed :=
  match slice buf 0 n with
  | None => (buf, Panic)
  | Some d => (buf, Write ([x00; x00; x00] ++ d))
  end.

Definition frame (role : mode) (buf : bytes) (n : nat) (raddr : string)
  : bytes * framed :=
  match role with
  | remoteServer => frame_remoteServer buf n raddr
  | relayClient => frame_relayClient buf n
  | socksClient => frame_socksClient buf n
  end.

(** A read of [payload] from [raddr] into [buf], then the switch: one
    pass of the loop body up to the call of [dst.WriteTo]. *)
Definition relay_once (role : mode) (buf payload : bytes) (raddr : string)
  : bytes * framed :=
  let '(buf', n) := read_into buf payload in frame role buf' n raddr.
End Framing.

(** ** Time, errors and the surroundings of a copy loop *)

(** An error value as the callers tell them apart: a [net.Error] whose
    [Timeout()] holds, or anything else. *)
Inductive error := ErrTimeout | ErrOther.

(** What reaches the source socket next.  Times are clock readings in the
    unit of [time.Duration]. *)
Inductive arrival :=
  | Datagram (at_time : Z) (raddr : string) (payload : bytes)
             (write_err : option error)
  | Broken (at_time : Z) (e : error).

(** The calls a copy loop makes on its two sockets. *)
Inductive effect :=
  | SetReadDeadline (deadline : Z)
  | ReadFrom (now : Z)
  | WriteTo (datagram : bytes).

Inductive exit :=
  | Returned (e : error)
  | Panicked.

(** A read with a deadline: it succeeds when the deadline lies ahead and
    the datagram is there before it. *)
Definition in_time (now deadline at_time : Z) : bool :=
  ((now <? deadline) && (at_time <? deadline))%Z.

Section TimedCopy.
Context `{AddrCodec}.

(** [func timedCopy(dst, target, src, timeout, role) error], lines
    293-320, run from clock [now] against the arrivals [env] at [src].
    The loop has no exit but an error; arrivals that have run out mean
    silence, so the last read ends at its deadline. *)
Fixpoint timedCopy (role : mode) (timeout now : Z) (buf : bytes)
    (env : list arrival) : list effect * exit * Z :=
  let deadline := (now + timeout)%Z in
  let pre := [SetReadDeadline deadline; ReadFrom now] in
  match env with
  | [] => (pre, Returned ErrTimeout, deadline)
  | Broken t e :: _ =>
    if in_time now deadline t then (pre, Returned e, now `max` t)%Z
    else (pre, Returned ErrTimeout, deadline)
  | Datagram t raddr payload werr :: env' =>
    if in_time now deadline t then
      let now' := (now `max` t)%Z in
      match relay_once role buf payload raddr with
      | (_, Panic) => (pre, Panicked, now')
      | (buf', Write d) =>
        match werr with
        | Some e => (pre ++ [WriteTo d], Returned e, now')
        | None =>
          let '(tr, r, c) := timedCopy role timeout now' buf' env' in
          (pre ++ WriteTo d :: tr, r, c)
        end
      end
    else (pre, Returned ErrTimeout, deadline)
  end.
End TimedCopy.

(** ** The packet NAT table *)

(** The sockets of a listener: the one it listens on, and the forwarding
    sockets that [net.ListenPacket] opens, known by their number.  A
    [net.PacketConn] value is a socket or nil. *)
Inductive socket :=
  | Listening
  | Forwarding (n : nat).

#[global] Instance socket_eq_dec : EqDecision socket.
Proof. solve_decision. Defined.

Abbreviation PacketConn := (option socket).

(** [type natmap struct]: the map and the timeout.  The embedded
    [sync.RWMutex] makes each method body one critical section, so each
    method is one function on the table. *)
Record natmap := {
  nm_m : gmap string PacketConn;
  nm_timeout : Z
}.

Definition newNATmap (timeout : Z) : natmap :=
  {| nm_m := ∅; nm_timeout := timeout |}.

(** [return m.m[key]]: the zero value nil for a missing key. *)
Definition natmap_Get (key : string) (m : natmap) : PacketConn :=
  default None (nm_m m !! key).

Definition natmap_Set (key : string) (pc : PacketConn) (m : natmap) : natmap :=
  {| nm_m := <[key := pc]> (nm_m m); nm_timeout := nm_timeout m |}.

(** [pc, ok := m.m[key]; if ok { delete(m.m, key); return pc }; return nil] *)
Definition natmap_Del (key : string) (m : natmap) : PacketConn * natmap :=
  match nm_m m !! key with
  | Some pc => (pc, {| nm_m := delete key (nm_m m); nm_timeout := nm_timeout m |})
  | None => (None, m)
  end.

(** The goroutine started by [Add], with the arguments it closes over. *)
Record reaper := {
  rp_peer : string;
  rp_dst : PacketConn;
  rp_src : PacketConn;
  rp_role : mode
}.

(** [func (m *natmap) Add(peer, dst, src, role)]: the entry is set and the
    goroutine is started. *)
Definition natmap_Add (peer : string) (dst src : PacketConn)
    (role : mode) (m : natmap) : natmap * reaper :=
  (natmap_Set peer src m,
   {| rp_peer := peer; rp_dst := dst; rp_src := src; rp_role := role |}).

(** The end of that goroutine, lines 286-288: the sockets on which [Close]
    is called, and the table afterwards. *)
Definition reap (key : string) (m : natmap) : list socket * natmap :=
  let '(pc, m') := natmap_Del key m in
  (match pc with Some c => [c] | None => [] end, m').

Section Reaper.
Context `{AddrCodec}.

End Reaper.

(** ** The SOCKS5 listener [udpSocksLocal] *)

(** Where the goroutine started by [Add] stands: in [timedCopy], before
    [m.Del], before [pc.Close()] with what [Del] returned, or at its end. *)
Inductive rpc := RCopy | RDel | RClose (pc : PacketConn) | RDone.

Record goroutine := {
  g_args : reaper;
  g_at : rpc
}.

(** What one pass of the listener meets: the result of [c.ReadFrom(buf)],
    whether [net.ListenPacket] and [pc.WriteTo] succeed. *)
Record socks_input := {
  in_read : error + string * bytes;
  in_listen_ok : bool;
  in_write_ok : bool
}.

(** The listener's table, the goroutines started so far (the n-th belongs
    to the n-th socket [net.ListenPacket] has opened), the datagrams
    written to the server and the sockets closed. *)
Record socks_state := {
  ss_nm : natmap;
  ss_spawned : list goroutine;
  ss_sent : list (socket * bytes);
  ss_closed : list socket
}.

Inductive outcome (S : Type) :=
  | Continue (st : S)
  | Crash (st : S).
Arguments Continue {S} st.
Arguments Crash {S} st.

(** Lines 137-144, taken when [nm.Get] gave nil: a new socket, the log
    line with [socks.Addr(buf[3:])], and [nm.Add]; [shadow] wraps the
    socket, which stays the same socket.  [None] is the [continue] after
    a failed [net.ListenPacket]. *)
Definition socks_create (st : socks_state) (buf : bytes) (raddr : string)
    (inp : socks_input) : option (outcome (socket * socks_state)) :=
  if in_listen_ok inp then
    let pc := Forwarding (length (ss_spawned st)) in
    match slice buf 3 (length buf) with
    | None => Some (Crash (pc, st))
    | Some _ =>
      let '(nm, r) :=
        natmap_Add raddr (Some Listening) (Some pc) socksClient (ss_nm st) in
      Some (Continue (pc, {| ss_nm := nm;
                             ss_spawned := ss_spawned st ++
                                           [{| g_args := r; g_at := RCopy |}];
                             ss_sent := ss_sent st;
                             ss_closed := ss_closed st |}))
    end
  else None.

(** Lines 147-151: [pc.WriteTo(buf[3:n], srvAddr)]. *)
Definition socks_forward (st : socks_state) (buf : bytes) (n : nat)
    (pc : socket) (inp : socks_input) : outcome socks_state :=
  match slice buf 3 n with
  | None => Crash st
  | Some d =>
    if in_write_ok inp then
      Continue {| ss_nm := ss_nm st; ss_spawned := ss_spawned st;
                  ss_sent := (pc, d) :: ss_sent st;
                  ss_closed := ss_closed st |}
    else Continue st
  end.

(** One pass of the [for] loop of [udpSocksLocal], lines 128-152, on the
    buffer allocated once before the loop. *)
Definition udpSocksLocal_pass (st : socks_state) (buf : bytes)
    (inp : socks_input) : bytes * outcome socks_state :=
  match in_read inp with
  | inl _ => (buf, Continue st)
  | inr (raddr, payload) =>
    let '(buf, n) := read_into buf payload in
    match natmap_Get raddr (ss_nm st) with
    | Some pc => (buf, socks_forward st buf n pc inp)
    | None =>
      match socks_create st buf raddr inp with
      | None => (buf, Continue st)
      | Some (Crash (_, st')) => (buf, Crash st')
      | Some (Continue (pc, st')) => (buf, socks_forward st' buf n pc inp)
      end
    end
  end.

(** ** A concrete address codec

    Package [socks] is not among the sources, and the spec leaves the wire
    format to it: a prefix [{address type, address, port}] whose length
    can be read off its first bytes, made by [parse] from a textual
    address and cut off a datagram by [split].  This module fills that in
    with the layout of RFC 1928, section 5, and the textual addresses of
    Go's [net] package, to have a codec where a statement is evaluated. *)

Module Socks5.
Local Open Scope N_scope.

(** Modelled from the spec: the missing constant [socks.AtypIPv4]. *)
Definition AtypIPv4 : byte := x01.

(** Modelled from the spec: the missing constant [socks.AtypDomainName]. *)
Definition AtypDomainName : byte := x03.

(** Modelled from the spec: the missing constant [socks.AtypIPv6]. *)
Definition AtypIPv6 : byte := x04.

(** Modelled from the spec: the conversion [byte(n)] in the missing
    [socks.ParseAddr]. *)
Definition byte_of_N (n : N) : byte := default x00 (Byte.of_N (n mod 256)).

(** Modelled from the spec: a decimal digit of a port or of a dotted
    quad, for the missing [socks.ParseAddr]. *)
Definition digit (c : ascii) : option N :=
  let n := N_of_ascii c in
  if (48 <=? n) && (n <=? 57) then Some (n - 48) else None.

(** Modelled from the spec: a hexadecimal digit of an IPv6 literal, for
    the missing [socks.ParseAddr]. *)
Definition hexdigit (c : ascii) : option N :=
  let n := N_of_ascii c in
  if (48 <=? n) && (n <=? 57) then Some (n - 48)
  else if (97 <=? n) && (n <=? 102) then Some (n - 87)
  else if (65 <=? n) && (n <=? 70) then Some (n - 55)
  else None.

(** Modelled from the spec: the value of a run of digits, for the missing
    [socks.ParseAddr]. *)
Fixpoint number (base : N) (dig : ascii → option N) (acc : N)
    (l : list ascii) : option N :=
  match l with
  | [] => Some acc
  | c :: l' => d ← dig c; number base dig (acc * base + d) l'
  end.

(** Modelled from the spec: a non-empty run of digits, for the missing
    [socks.ParseAddr]. *)
Definition numeral (base : N) (dig : ascii → option N) (l : list ascii)
  : option N :=
  match l with [] => None | _ => number base dig 0 l end.

(** Modelled from the spec: the fields of [l] between the separators
    [sep], for the missing [socks.ParseAddr]. *)
Fixpoint fields (sep : ascii) (l : list ascii) : list (list ascii) :=
  match l with
  | [] => [[]]
  | c :: l' =>
    if Ascii.eqb c sep then [] :: fields sep l'
    else match fields sep l' with
         | f :: fs => (c :: f) :: fs
         | [] => [[c]]
         end
  end.

(** Modelled from the spec: [net.SplitHostPort] as the missing
    [socks.ParseAddr] calls it, on ["host:port"] or ["[host]:port"]. *)
Definition SplitHostPort (s : list ascii)
  : option (list ascii * list ascii) :=
  match s with
  | "["%char :: rest =>
    match fields "]"%char rest with
    | [host; ":"%char :: port] => Some (host, port)
    | _ => None
    end
  | _ =>
    match fields ":"%char s with
    | [host; port] => Some (host, port)
    | _ => None
    end
  end.

(** Modelled from the spec: one part of a dotted quad, for the missing
    [socks.ParseAddr]: at most three digits, no leading zero, at most
    255. *)
Definition octet (l : list ascii) : option byte :=
  match l with
  | "0"%char :: _ :: _ => None
  | _ =>
    n ← numeral 10 digit l;
    if (3 <? length l)%nat || (255 <? n) then None else Some (byte_of_N n)
  end.

(** Modelled from the spec: one group of an IPv6 literal, for the missing
    [socks.ParseAddr]: one to four hexadecimal digits. *)
Definition group (l : list ascii) : option bytes :=
  n ← numeral 16 hexdigit l;
  if (4 <? length l)%nat then None
  else Some [byte_of_N (n / 256); byte_of_N n].

(** Modelled from the spec: the groups of a run between colons, for the
    missing [socks.ParseAddr]; the empty run has none. *)
Definition groups (l : list ascii) : option bytes :=
  match l with
  | [] => Some []
  | _ => gs ← mapM group (fields ":"%char l); Some (mjoin gs)
  end.

(** Modelled from the spec: the text before and after the first ["::"]
    of an IPv6 literal, for the missing [socks.ParseAddr]. *)
Fixpoint cut_gap (l : list ascii) : option (list ascii * list ascii) :=
  match l with
  | ":"%char :: ":"%char :: r => Some ([], r)
  | c :: l' => '(a, b) ← cut_gap l'; Some (c :: a, b)
  | [] => None
  end.

(** Modelled from the spec: the sixteen bytes of an IPv6 literal, with at
    most one ["::"], for the missing [socks.ParseAddr]. *)
Definition ParseIPv6 (host : list ascii) : option bytes :=
  match cut_gap host with
  | None => b ← groups host; if (length b =? 16)%nat then Some b else None
  | Some (l, r) =>
    a ← groups l; b ← groups r;
    if (length a + length b <=? 14)%nat
    then Some (a ++ replicate (16 - (length a + length b))%nat x00 ++ b)
    else None
  end.

(** Modelled from the spec: [ip.To4()] on sixteen bytes as the missing
    [socks.ParseAddr] calls it: the last four of an IPv4-mapped address. *)
Definition To4 (ip : bytes) : option bytes :=
  if decide (take 12 ip = replicate 10 x00 ++ [xff; xff])
  then Some (drop 12 ip) else None.

(** Modelled from the spec: [net.ParseIP] followed by [To4] as the missing
    [socks.ParseAddr] calls them: four bytes for an IPv4 address, sixteen
    for any other IPv6 address. *)
Definition ParseIP (host : list ascii) : option bytes :=
  match mapM octet (fields "."%char host) with
  | Some [a; b; c; d] => Some [a; b; c; d]
  | _ => ip ← ParseIPv6 host; Some (default ip (To4 ip))
  end.

(** Modelled from the spec: [socks.ParseAddr], which is not among the
    sources.  The spec has [parse(textAddress) -> prefixBytes | nil] for
    a prefix [{address type, address, port}]; the layout is the one of
    RFC 1928: type byte, then four or sixteen address bytes or a length
    byte and a host name, then the port, high byte first. *)
Definition ParseAddr (s : string) : option bytes :=
  '(host, port) ← SplitHostPort (list_ascii_of_string s);
  body ← match ParseIP host with
         | Some ip =>
           if (length ip =? 4)%nat then Some (AtypIPv4 :: ip)
           else if (length ip =? 16)%nat then Some (AtypIPv6 :: ip)
           else None
         | None =>
           l ← Byte.of_nat (length host);
           Some (AtypDomainName :: l :: map byte_of_ascii host)
         end;
  portnum ← numeral 10 digit port;
  if 65535 <? portnum then None
  else Some (body ++ [byte_of_N (portnum / 256); byte_of_N portnum]).

(** Modelled from the spec: the length the first bytes of [b] announce,
    for the missing [socks.SplitAddr]. *)
Definition announced (b : bytes) : option nat :=
  match b with
  | [] => None
  | t :: rest =>
    if Byte.eqb t AtypDomainName then
      match rest with
      | [] => None
      | l :: _ => Some (1 + 1 + Byte.to_nat l + 2)%nat
      end
    else if Byte.eqb t AtypIPv4 then Some (1 + 4 + 2)%nat
    else if Byte.eqb t AtypIPv6 then Some (1 + 16 + 2)%nat
    else None
  end.

(** Modelled from the spec: [socks.SplitAddr], which is not among the
    sources.  The spec has [split(datagramBytes) -> (prefix, remainder) |
    nil], the prefix being valid when its length, which its first bytes
    announce, fits the datagram; the layout is the one of RFC 1928. *)
Definition SplitAddr (b : bytes) : option bytes :=
  addrLen ← announced b;
  if (length b <? addrLen)%nat then None else Some (take addrLen b).

(** Modelled from the spec: the missing package [socks] as a codec. *)
Definition codec : AddrCodec :=
  Build_AddrCodec ParseAddr SplitAddr.
End Socks5.

(** ** The goroutines of [udpSocksLocal] *)

Module SocksRelay.
(** The listener is at [c.ReadFrom], or between an [nm.Get] that gave
    nil and [net.ListenPacket]. *)
Inductive lpc :=
  | LRead
  | LCreate (raddr : string) (n : nat) (inp : socks_input).

Record state := {
  st : socks_state;
  buf : bytes;
  lis : lpc;
  crashed : bool
}.

Definition init (timeout : Z) : state :=
  {| st := {| ss_nm := newNATmap timeout; ss_spawned := [];
              ss_sent := []; ss_closed := [] |};
     buf := replicate udpBufSize x00;
     lis := LRead;
     crashed := false |}.

(** The steps: each ends where the goroutine next takes or has just
    released the lock of the table, or blocks. *)
Inductive action :=
  | AGet (inp : socks_input)   (* ReadFrom, nm.Get; WriteTo if found *)
  | AAdd                       (* ListenPacket, nm.Add, WriteTo *)
  | AExit (c : nat)            (* timedCopy returns *)
  | ADel (c : nat)             (* m.Del(peer.String()) *)
  | AClose (c : nat).          (* if pc != nil { pc.Close() } *)

Definition settle (b : bytes) (o : outcome socks_state) : state :=
  match o with
  | Continue st' => {| st := st'; buf := b; lis := LRead; crashed := false |}
  | Crash st' => {| st := st'; buf := b; lis := LRead; crashed := true |}
  end.

Definition set_at (c : nat) (r : rpc) (s : socks_state) : socks_state :=
  {| ss_nm := ss_nm s;
     ss_spawned :=
       alter (λ g, {| g_args := g_args g; g_at := r |}) c (ss_spawned s);
     ss_sent := ss_sent s;
     ss_closed := ss_closed s |}.

Definition step_get (inp : socks_input) (s : state) : option state :=
  match lis s, in_read inp with
  | LRead, inl _ => Some s
  | LRead, inr (raddr, payload) =>
    let '(b, n) := read_into (buf s) payload in
    match natmap_Get raddr (ss_nm (st s)) with
    | Some pc => Some (settle b (socks_forward (st s) b n pc inp))
    | None => Some {| st := st s; buf := b; lis := LCreate raddr n inp;
                      crashed := false |}
    end
  | _, _ => None
  end.

Definition step_add (s : state) : option state :=
  match lis s with
  | LCreate raddr n inp =>
    match socks_create (st s) (buf s) raddr inp with
    | None => Some {| st := st s; buf := buf s; lis := LRead;
                      crashed := false |}
    | Some (Crash (_, st')) => Some (settle (buf s) (Crash st'))
    | Some (Continue (pc, st')) =>
      Some (settle (buf s) (socks_forward st' (buf s) n pc inp))
    end
  | LRead => None
  end.

Definition step_reaper (c : nat)
    (from : rpc → option (rpc * natmap * list socket))
    (s : state) : option state :=
  g ← ss_spawned (st s) !! c;
  '(r, nm, closed) ← from (g_at g);
  let st' := set_at c r (st s) in
  Some {| st := {| ss_nm := nm; ss_spawned := ss_spawned st';
                   ss_sent := ss_sent st'; ss_closed := closed |};
          buf := buf s; lis := lis s; crashed := false |}.

Definition step (a : action) (s : state) : option state :=
  if crashed s then None else
  let nm := ss_nm (st s) in
  let closed := ss_closed (st s) in
  match a with
  | AGet inp => step_get inp s
  | AAdd => step_add s
  | AExit c =>
    step_reaper c (λ r, match r with
                        | RCopy => Some (RDel, nm, closed)
                        | _ => None
                        end) s
  | ADel c =>
    g ← ss_spawned (st s) !! c;
    let '(pc, nm') := natmap_Del (rp_peer (g_args g)) nm in
    step_reaper c (λ r, match r with
                        | RDel => Some (RClose pc, nm', closed)
                        | _ => None
                        end) s
  | AClose c =>
    step_reaper c (λ r, match r with
                        | RClose (Some c') => Some (RDone, nm, c' :: closed)
                        | RClose None => Some (RDone, nm, closed)
                        | _ => None
                        end) s
  end.

Fixpoint run (tr : list action) (s : state) : option state :=
  match tr with
  | [] => Some s
  | a :: tr' => s' ← step a s; run tr' s'
  end.

Definition reachable (timeout : Z) (s : state) : Prop :=
  ∃ tr, run tr (init timeout) = Some s.

(** The goroutine of socket [c] has not run [m.Del] yet. *)
Definition pending (r : rpc) : bool :=
  match r with RCopy | RDel => true | _ => false end.

(** The listener has found the peer absent and has not inserted yet. *)
Definition inserting (s : state) : Prop :=
  ∃ raddr n inp, lis s = LCreate raddr n inp.

(** A step of one of the goroutines started by [Add]. *)
Definition by_reaper (a : action) : Prop :=
  match a with AGet _ | AAdd => False | _ => True end.
(** At most one goroutine that has not yet run [m.Del] per peer. *)
Definition single_session (s : state) : Prop :=
  ∀ c d g h,
    ss_spawned (st s) !! c = Some g → ss_spawned (st s) !! d = Some h →
    rp_peer (g_args g) = rp_peer (g_args h) →
    pending (g_at g) = true → pending (g_at h) = true → c = d.

(** The entry of a peer is the socket of its one such goroutine. *)
Definition entries_are_sessions (s : state) : Prop :=
  ∀ k pc, nm_m (ss_nm (st s)) !! k = Some pc →
    ∃ c g, pc = Some (Forwarding c) ∧ ss_spawned (st s) !! c = Some g
           ∧ rp_peer (g_args g) = k ∧ pending (g_at g) = true.

(** Between the listener's check and its insertion no goroutine started
    by [Add] changes the table. *)
Definition atomic_insert (timeout : Z) : Prop :=
  ∀ s, reachable timeout s → inserting s →
    ∀ a s', by_reaper a → step a s = Some s' → ss_nm (st s') = ss_nm (st s).

(** A forwarding socket of peer [k] on which [Close] has not been called. *)
Definition open_socket (s : state) (k : string) (c : nat) : Prop :=
  (∃ g, ss_spawned (st s) !! c = Some g ∧ rp_peer (g_args g) = k)
  ∧ Forwarding c ∉ ss_closed (st s).
End SocksRelay.

(** ** The goroutines of [udpLocal] and [udpRemote]

    The two listeners share their treatment of the table [m], the mutex
    [lock] and the per-peer channel; [udpLocal] puts the fixed target
    prefix [tgt] in front of every datagram, [udpRemote] is the case of an
    empty [tgt]. *)

Module Relay.
(** A buffer of the pool, known by a number, and the slice of it that
    travels through the channel. *)
Record packet := {
  pk_buf : nat;
  pk_data : bytes
}.

(** Where the goroutine around [timedCopy] stands (lines 82-97 and
    214-229): in the copy loop, before [pc.Close()], before
    [lock.Lock()], inside the critical section, before [lock.Unlock()],
    at its end. *)
Inductive rpc := RCopy | RClose | RAcquire | RCritical | RRelease | RDone.

(** One session: the key [k], the channel [ch] with its buffer of
    capacity 1, the forwarding socket [pc], and the goroutine above.
    A channel is known by the number of its session. *)
Record session := {
  s_key : string;
  s_inbox : list packet;
  s_closed : bool;
  s_open : bool;
  s_ret : rpc
}.

(** Where the listener stands in its pass (lines 50-107 and 169-239). *)
Inductive lpc :=
  | LRead
  | LAcquire (k : string) (p : packet)
  | LLookup (k : string) (p : packet)
  | LCreate (k : string) (p : packet)
  | LRelease (ch : option nat) (p : packet)
  | LSelect (ch : option nat) (p : packet).

Inductive holder := Listener | Return (i : nat).

Record state := {
  tbl : gmap string nat;
  lock : option holder;
  sessions : list session;
  lis : lpc;
  pool : list nat;
  fresh : nat;
  crashed : bool
}.

Definition init : state :=
  {| tbl := ∅; lock := None; sessions := []; lis := LRead; pool := [];
     fresh := 0; crashed := false |}.

Definition set_lis (l : lpc) (s : state) : state :=
  {| tbl := tbl s; lock := lock s; sessions := sessions s; lis := l;
     pool := pool s; fresh := fresh s; crashed := crashed s |}.
Definition set_lock (o : option holder) (s : state) : state :=
  {| tbl := tbl s; lock := o; sessions := sessions s; lis := lis s;
     pool := pool s; fresh := fresh s; crashed := crashed s |}.
Definition set_tbl (m : gmap string nat) (s : state) : state :=
  {| tbl := m; lock := lock s; sessions := sessions s; lis := lis s;
     pool := pool s; fresh := fresh s; crashed := crashed s |}.
Definition set_sessions (l : list session) (s : state) : state :=
  {| tbl := tbl s; lock := lock s; sessions := l; lis := lis s;
     pool := pool s; fresh := fresh s; crashed := crashed s |}.
Definition crash (s : state) : state :=
  {| tbl := tbl s; lock := lock s; sessions := sessions s; lis := lis s;
     pool := pool s; fresh := fresh s; crashed := true |}.

(** [bufPool.Put(buf)] and [bufPool.Get()]; an empty pool makes a new
    buffer. *)
Definition put (b : nat) (s : state) : state :=
  {| tbl := tbl s; lock := lock s; sessions := sessions s; lis := lis s;
     pool := b :: pool s; fresh := fresh s; crashed := crashed s |}.
Definition get (s : state) : nat * state :=
  match pool s with
  | b :: rest =>
    (b, {| tbl := tbl s; lock := lock s; sessions := sessions s;
           lis := lis s; pool := rest; fresh := fresh s;
           crashed := crashed s |})
  | [] =>
    (fresh s, {| tbl := tbl s; lock := lock s; sessions := sessions s;
                 lis := lis s; pool := []; fresh := S (fresh s);
                 crashed := crashed s |})
  end.

Definition set_ret (r : rpc) (x : session) : session :=
  {| s_key := s_key x; s_inbox := s_inbox x; s_closed := s_closed x;
     s_open := s_open x; s_ret := r |}.
Definition set_inbox (q : list packet) (x : session) : session :=
  {| s_key := s_key x; s_inbox := q; s_closed := s_closed x;
     s_open := s_open x; s_ret := s_ret x |}.
Definition close_chan (x : session) : session :=
  {| s_key := s_key x; s_inbox := s_inbox x; s_closed := true;
     s_open := s_open x; s_ret := s_ret x |}.
Definition close_sock (x : session) : session :=
  {| s_key := s_key x; s_inbox := s_inbox x; s_closed := s_closed x;
     s_open := false; s_ret := s_ret x |}.

Definition upd (i : nat) (f : session → session) (s : state) : state :=
  set_sessions (alter f i (sessions s)) s.

(** [ch = make(chan []byte, 1)] and the socket of a new session. *)
Definition new_session (k : string) : session :=
  {| s_key := k; s_inbox := []; s_closed := false; s_open := true;
     s_ret := RCopy |}.

Inductive action :=
  | ARead (k : string) (payload : bytes) (ok : bool)
  | ALock (g : holder)
  | ALookup
  | ACreate (ok : bool)
  | AUnlock (g : holder)
  | ASelect
  | ADrain (i : nat)
  | AExit (i : nat)
  | AClose (i : nat)
  | ARemove (i : nat).

Section Steps.
Variable tgt : bytes.

(** Lines 51-57: a buffer from the pool, [copy(buf, tgt)], the read
    behind the prefix.  After a failed read the pass ends, the buffer
    is not put back. *)
Definition step_read (k : string) (payload : bytes) (ok : bool)
    (s : state) : option state :=
  match lis s with
  | LRead =>
    let '(b, s') := get s in
    if udpBufSize <? length tgt then Some (crash s')
    else if ok then
      let data := tgt ++ take (udpBufSize - length tgt) payload in
      Some (set_lis (LAcquire k {| pk_buf := b; pk_data := data |}) s')
    else Some s'
  | _ => None
  end.

(** [lock.Lock()], by the listener (line 59) or by the goroutine of
    session [i] (line 91). *)
Definition step_lock (g : holder) (s : state) : option state :=
  match lock s with
  | Some _ => None
  | None =>
    match g with
    | Listener =>
      match lis s with
      | LAcquire k p => Some (set_lock (Some g) (set_lis (LLookup k p) s))
      | _ => None
      end
    | Return i =>
      x ← sessions s !! i;
      match s_ret x with
      | RAcquire => Some (set_lock (Some g) (upd i (set_ret RCritical) s))
      | _ => None
      end
    end
  end.

(** Lines 60-62: [ch := m[k]] and the test [ch == nil]. *)
Definition step_lookup (s : state) : option state :=
  match lis s with
  | LLookup k p =>
    match tbl s !! k with
    | Some i => Some (set_lis (LRelease (Some i) p) s)
    | None => Some (set_lis (LCreate k p) s)
    end
  | _ => None
  end.

(** Lines 63-97: the forwarding socket, the channel, [m[k] = ch] and
    the two goroutines; after a failed [net.ListenPacket] the jump to
    [Unlock] with [ch] still nil. *)
Definition step_create (ok : bool) (s : state) : option state :=
  match lis s with
  | LCreate k p =>
    if ok then
      let i := length (sessions s) in
      Some (set_lis (LRelease (Some i) p)
              (set_tbl (<[k := i]> (tbl s))
                 (set_sessions (sessions s ++ [new_session k]) s)))
    else Some (set_lis (LRelease None p) s)
  | _ => None
  end.

(** [lock.Unlock()], lines 100 and 96. *)
Definition step_unlock (g : holder) (s : state) : option state :=
  match g with
  | Listener =>
    match lis s with
    | LRelease ch p => Some (set_lock None (set_lis (LSelect ch p) s))
    | _ => None
    end
  | Return i =>
    x ← sessions s !! i;
    match s_ret x with
    | RRelease => Some (set_lock None (upd i (set_ret RDone) s))
    | _ => None
    end
  end.

(** Lines 102-106: the [select] with a send and a [default].  A send
    on a nil channel is never ready; a send on a closed channel
    panics; a buffered channel takes the value while its buffer has
    room. *)
Definition step_select (s : state) : option state :=
  match lis s with
  | LSelect None p => Some (set_lis LRead (put (pk_buf p) s))
  | LSelect (Some i) p =>
    x ← sessions s !! i;
    if s_closed x then Some (crash s)
    else if length (s_inbox x) <? 1
    then Some (set_lis LRead (upd i (set_inbox (s_inbox x ++ [p])) s))
    else Some (set_lis LRead (put (pk_buf p) s))
  | _ => None
  end.

(** One turn of [for buf := range ch]: the oldest datagram leaves the
    channel, is written out, and its buffer goes back to the pool. *)
Definition step_drain (i : nat) (s : state) : option state :=
  x ← sessions s !! i;
  match s_inbox x with
  | p :: rest => Some (put (pk_buf p) (upd i (set_inbox rest) s))
  | [] => None
  end.

(** [timedCopy] returns. *)
Definition step_exit (i : nat) (s : state) : option state :=
  x ← sessions s !! i;
  match s_ret x with
  | RCopy => Some (upd i (set_ret RClose) s)
  | _ => None
  end.

(** [pc.Close()], lines 90 and 222. *)
Definition step_close (i : nat) (s : state) : option state :=
  x ← sessions s !! i;
  match s_ret x with
  | RClose => Some (upd i (λ x, set_ret RAcquire (close_sock x)) s)
  | _ => None
  end.

(** Lines 92-95: [if ch := m[k]; ch != nil { close(ch) }] and
    [delete(m, k)].  Closing a closed channel panics. *)
Definition step_remove (i : nat) (s : state) : option state :=
  x ← sessions s !! i;
  match s_ret x with
  | RCritical =>
    let k := s_key x in
    let s1 := upd i (set_ret RRelease) (set_tbl (delete k (tbl s)) s) in
    match tbl s !! k with
    | None => Some s1
    | Some j =>
      match sessions s !! j with
      | Some y =>
        if s_closed y then Some (crash s1) else Some (upd j close_chan s1)
      | None => Some s1
      end
    end
  | _ => None
  end.

Definition step (a : action) (s : state) : option state :=
  if crashed s then None else
  match a with
  | ARead k payload ok => step_read k payload ok s
  | ALock g => step_lock g s
  | ALookup => step_lookup s
  | ACreate ok => step_create ok s
  | AUnlock g => step_unlock g s
  | ASelect => step_select s
  | ADrain i => step_drain i s
  | AExit i => step_exit i s
  | AClose i => step_close i s
  | ARemove i => step_remove i s
  end.

Fixpoint run (tr : list action) (s : state) : option state :=
  match tr with
  | [] => Some s
  | a :: tr' => s' ← step a s; run tr' s'
  end.

Definition reachable (s : state) : Prop := ∃ tr, run tr init = Some s.
End Steps.

(** The session still has its entry in the table: its goroutine has not
    run [delete(m, k)] yet. *)
Definition in_table (r : rpc) : bool :=
  match r with RRelease | RDone => false | _ => true end.

(** The listener is between [lock.Lock()] and [lock.Unlock()]. *)
Definition lis_holds (l : lpc) : bool :=
  match l with LLookup _ _ | LCreate _ _ | LRelease _ _ => true | _ => false end.

(** The goroutine of a session is between [lock.Lock()] and
    [lock.Unlock()]. *)
Definition ret_holds (r : rpc) : bool :=
  match r with RCritical | RRelease => true | _ => false end.

(** A step of the listener. *)
Definition by_listener (a : action) : Prop :=
  match a with
  | ARead _ _ _ | ALock Listener | ALookup | ACreate _ | AUnlock Listener
  | ASelect => True
  | _ => False
  end.
(** At most one session per peer whose entry has not been deleted. *)
Definition single_session (s : state) : Prop :=
  ∀ i j x y,
    sessions s !! i = Some x → sessions s !! j = Some y →
    s_key x = s_key y →
    in_table (s_ret x) = true → in_table (s_ret y) = true → i = j.


(** The entry of a peer is the channel of its one such session, and that
    channel is not closed. *)
Definition entries_are_sessions (s : state) : Prop :=
  ∀ k i, tbl s !! k = Some i →
    ∃ x, sessions s !! i = Some x ∧ s_key x = k
         ∧ in_table (s_ret x) = true ∧ s_closed x = false.

(** While the listener is between [lock.Lock()] and [lock.Unlock()], no
    other goroutine changes the table. *)
Definition atomic_insert (tgt : bytes) : Prop :=
  ∀ s, reachable tgt s → lis_holds (lis s) = true →
    ∀ a s', ¬ by_listener a → step tgt a s = Some s' → tbl s' = tbl s.

End Relay.

(** ** Observations on a copy loop *)

(** The datagrams a trace hands to [dst.WriteTo], in order. *)
Definition writes (tr : list effect) : list bytes :=
  omap (λ e, match e with WriteTo d => Some d | _ => None end) tr.


(** The reads of a copy loop that succeed, each with the source address
    and the bytes that the read returns in a buffer of [cap] bytes; the
    loop ends with the first write that fails. *)
Fixpoint delivered (cap : nat) (timeout now : Z) (env : list arrival)
    : list (string * bytes) :=
  match env with
  | Datagram t raddr payload werr :: env' =>
    if in_time now (now + timeout) t then
      (raddr, take cap payload)
      :: match werr with
         | None => delivered cap timeout (now `max` t)%Z env'
         | Some _ => []
         end
    else []
  | _ => []
  end.


(** The goroutine that [nm.Add] starts in a pass of [udpSocksLocal] for
    the [n]-th forwarding socket. *)
Definition socks_goroutine (peer : string) (n : nat) : goroutine :=
  {| g_args := {| rp_peer := peer; rp_dst := Some Listening;
                  rp_src := Some (Forwarding n); rp_role := socksClient |};
     g_at := RCopy |}.

(** ** The drain loop of [udpRemote] *)

Section Drain.
Context `{AddrCodec}.

(** One turn of [for buf := range ch], lines 193-211, on the slice the
    listener has sent: [None] is a datagram given up at [End] with nothing
    written.  Every turn that does not panic ends in [bufPool.Put] and
    goes on to the next datagram. *)
Definition drain_turn (data : bytes) (resolve_ok : bool) : option framed :=
  match SplitAddr data with
  | None => None
  | Some tgtAddr =>
    if resolve_ok then
      match slice data (length tgtAddr) (length data) with
      | Some d => Some (Write d)
      | None => Some Panic
      end
    else None
  end.
End Drain.

(** ** The calls of [timedCopy] *)

(** The static types that occur at the call sites. *)
Inductive gotype :=
  | TPacketConn
  | TAddr
  | TDuration
  | TMode
  | TUntypedBool.

#[global] Instance gotype_eq_dec : EqDecision gotype.
Proof. solve_decision. Defined.

(** Assignability of an argument to a parameter among these types:
    [net.Addr] and [net.PacketConn] are interfaces neither of which has
    the other's methods, and the constants [true] and [false] are
    representable in no integer type, so only equal types are assignable. *)
Definition assignable (arg param : gotype) : bool := bool_decide (arg = param).

(** [func timedCopy(dst net.PacketConn, target net.Addr,
    src net.PacketConn, timeout time.Duration, role mode) error] *)
Definition timedCopy_params : list gotype :=
  [TPacketConn; TAddr; TPacketConn; TDuration; TMode].

(** Line 285: [timedCopy(dst, peer, src, m.timeout, role)]. *)
Definition call_natmap_Add : list gotype :=
  [TPacketConn; TAddr; TPacketConn; TDuration; TMode].

(** Line 83: [timedCopy(raddr, c, pc, config.UDPTimeout, false)]. *)
Definition call_udpLocal : list gotype :=
  [TAddr; TPacketConn; TPacketConn; TDuration; TUntypedBool].

(** Line 215: [timedCopy(raddr, c, pc, config.UDPTimeout, true)]. *)
Definition call_udpRemote : list gotype :=
  [TAddr; TPacketConn; TPacketConn; TDuration; TUntypedBool].

Definition well_typed_call (args : list gotype) : bool :=
  bool_decide (length args = length timedCopy_params)
  && forallb (λ '(a, p), assignable a p) (zip args timedCopy_params).

(** The role a call selects: its fifth argument, when that is a [mode]. *)
Definition passes_role (args : list gotype) : bool :=
  bool_decide (args !! 4 = Some TMode).

(** ** Two runs of the listeners *)

(** A datagram of [udpSocksLocal]: the three bytes of the SOCKS5 header
    and one more byte, from the given peer. *)
Definition socks_datagram (peer : string) : socks_input :=
  {| in_read := inr (peer, [x00; x00; x00; x01]);
     in_listen_ok := true; in_write_ok := true |}.


(** [udpSocksLocal]: a session of a peer is removed from the table, and
    before its socket is closed the same peer gets a new one. *)
Definition socks_overlap : list SocksRelay.action :=
  [SocksRelay.AGet (socks_datagram "198.51.100.2:5000"); SocksRelay.AAdd;
   SocksRelay.AExit 0; SocksRelay.ADel 0;
   SocksRelay.AGet (socks_datagram "198.51.100.2:5000"); SocksRelay.AAdd].

(** [udpRemote]: a first datagram of a peer creates the session and is
    sent into the channel; the second is read and the channel looked up
    while the first is still there. *)
Definition relay_backlog : list Relay.action :=
  [Relay.ARead "198.51.100.2:5000" [x01] true; Relay.ALock Relay.Listener;
   Relay.ALookup; Relay.ACreate true; Relay.AUnlock Relay.Listener;
   Relay.ASelect;
   Relay.ARead "198.51.100.2:5000" [x02] true; Relay.ALock Relay.Listener;
   Relay.ALookup; Relay.AUnlock Relay.Listener].

(** The state that run ends in. *)
Definition relay_backlog_state : Relay.state :=
  {| Relay.tbl := {[ "198.51.100.2:5000" := 0 ]};
     Relay.lock := None;
     Relay.sessions :=
       [{| Relay.s_key := "198.51.100.2:5000";
           Relay.s_inbox := [{| Relay.pk_buf := 0; Relay.pk_data := [x01] |}];
           Relay.s_closed := false; Relay.s_open := true;
           Relay.s_ret := Relay.RCopy |}];
     Relay.lis :=
       Relay.LSelect (Some 0) {| Relay.pk_buf := 1; Relay.pk_data := [x02] |};
     Relay.pool := []; Relay.fresh := 2; Relay.crashed := false |}.

(** ** Further observations *)

(** The arrivals are datagrams that come one after the other, the first
    less than [timeout] after [last] and each less than [timeout] after the
    one before, and every write succeeds. *)
Fixpoint paced (timeout last : Z) (env : list arrival) : Prop :=
  match env with
  | [] => True
  | Datagram t _ _ werr :: env' =>
    (last ≤ t < last + timeout)%Z ∧ werr = None ∧ paced timeout t env'
  | Broken _ _ :: _ => False
  end.

Definition arrival_time (a : arrival) : Z :=
  match a with Datagram t _ _ _ | Broken t _ => t end.

(** The time of the last arrival, [now] when there is none. *)
Definition last_arrival (now : Z) (env : list arrival) : Z :=
  default now (last (arrival_time <$> env)).

(** The error an arrival ends the copy loop with: the error of the read,
    or the error of the write of the datagram read. *)
Definition failure (a : arrival) : option error :=
  match a with
  | Datagram _ _ _ werr => werr
  | Broken _ e => Some e
  end.

(** The state in which a pass ends, panic or not. *)
Definition outcome_state {S : Type} (o : outcome S) : S :=
  match o with Continue st | Crash st => st end.

(** A step of [udpSocksLocal] that reads a datagram reads at least the
    three bytes of the SOCKS5 header. *)
Definition long_enough (a : SocksRelay.action) : Prop :=
  match a with
  | SocksRelay.AGet inp =>
    match in_read inp with
    | inr (_, payload) => 3 ≤ length payload
    | inl _ => True
    end
  | _ => True
  end.

(** The buffer the listener of [udpLocal] or [udpRemote] holds between
    [bufPool.Get] and the [select]. *)
Definition lis_bufs (l : Relay.lpc) : list nat :=
  match l with
  | Relay.LRead => []
  | Relay.LAcquire _ p | Relay.LLookup _ p | Relay.LCreate _ p
  | Relay.LRelease _ p | Relay.LSelect _ p => [Relay.pk_buf p]
  end.

(** The buffers that wait in the channels. *)
Definition inbox_bufs (l : list Relay.session) : list nat :=
  l ≫= λ x, Relay.pk_buf <$> Relay.s_inbox x.

(** All buffers that are in the pool or on their way back to it. *)
Definition buffers (s : Relay.state) : list nat :=
  Relay.pool s ++ lis_bufs (Relay.lis s) ++ inbox_bufs (Relay.sessions s).

(** ** Further runs of the listeners *)

(** [udpLocal] with the target 203.0.113.5:9000 after its first read, of
    the two bytes 0x61, 0x62. *)
Definition relay_framed_state : Relay.state :=
  {| Relay.tbl := ∅; Relay.lock := None; Relay.sessions := [];
     Relay.lis :=
       Relay.LAcquire "198.51.100.2:5000"
         {| Relay.pk_buf := 0;
            Relay.pk_data :=
              [x01; xcb; x00; x71; x05; x23; x28; x61; x62] |};
     Relay.pool := []; Relay.fresh := 1; Relay.crashed := false |}.

(** [udpRemote]: the listener has read a first datagram, holds the mutex
    and has found the peer absent. *)
Definition relay_absent : list Relay.action :=
  [Relay.ARead "198.51.100.2:5000" [x01] true; Relay.ALock Relay.Listener;
   Relay.ALookup].

Definition relay_absent_state : Relay.state :=
  {| Relay.tbl := ∅; Relay.lock := Some Relay.Listener;
     Relay.sessions := [];
     Relay.lis :=
       Relay.LCreate "198.51.100.2:5000"
         {| Relay.pk_buf := 0; Relay.pk_data := [x01] |};
     Relay.pool := []; Relay.fresh := 1; Relay.crashed := false |}.

(** [udpRemote]: a session is created and its datagram sent; its copy loop
    returns, the socket is closed and the goroutine takes the mutex. *)
Definition relay_teardown : list Relay.action :=
  take 6 relay_backlog
  ++ [Relay.AExit 0; Relay.AClose 0; Relay.ALock (Relay.Return 0)].

Definition relay_teardown_state : Relay.state :=
  {| Relay.tbl := {[ "198.51.100.2:5000" := 0 ]};
     Relay.lock := Some (Relay.Return 0);
     Relay.sessions :=
       [{| Relay.s_key := "198.51.100.2:5000";
           Relay.s_inbox := [{| Relay.pk_buf := 0; Relay.pk_data := [x01] |}];
           Relay.s_closed := false; Relay.s_open := false;
           Relay.s_ret := Relay.RCritical |}];
     Relay.lis := Relay.LRead;
     Relay.pool := []; Relay.fresh := 1; Relay.crashed := false |}.



(** [udpSocksLocal]: a session from its first datagram to the close of
    its socket. *)
Definition socks_teardown : list SocksRelay.action :=
  [SocksRelay.AGet (socks_datagram "198.51.100.2:5000"); SocksRelay.AAdd;
   SocksRelay.AExit 0; SocksRelay.ADel 0; SocksRelay.AClose 0].

Definition socks_teardown_state : SocksRelay.state :=
  {| SocksRelay.st :=
       {| ss_nm := newNATmap 300;
          ss_spawned :=
            [{| g_args := g_args (socks_goroutine "198.51.100.2:5000" 0);
                g_at := RDone |}];
          ss_sent := [(Forwarding 0, [x01])];
          ss_closed := [Forwarding 0] |};
     SocksRelay.buf := go_copy (replicate udpBufSize x00) [x00; x00; x00; x01];
     SocksRelay.lis := SocksRelay.LRead;
     SocksRelay.crashed := false |}.

(** * Properties *)

(** ** Slices and copies *)

Lemma length_go_copy (dst src : bytes) : length (go_copy dst src) = length dst.
Proof.
  unfold go_copy. rewrite length_app, length_take, length_drop. lia.
Qed.

Lemma slice_front (b : bytes) (n : nat) :
  n ≤ length b → slice b 0 n = Some (take n b).
Proof.
  intros Hn. unfold slice. simpl.
  destruct (Nat.leb_spec n (length b)); [|lia].
  by rewrite Nat.sub_0_r, drop_0.
Qed.

Lemma slice_from (b : bytes) (lo hi : nat) :
  lo ≤ hi → hi ≤ length b → slice b lo hi = Some (take (hi - lo) (drop lo b)).
Proof.
  intros Hlo Hhi. unfold slice.
  destruct (Nat.leb_spec lo hi); [|lia].
  destruct (Nat.leb_spec hi (length b)); [done|lia].
Qed.


Lemma slice_inverted (b : bytes) (lo hi : nat) :
  hi < lo → slice b lo hi = None.
Proof.
  intros Hhi. unfold slice. by destruct (Nat.leb_spec lo hi); [lia|].
Qed.

(** What a read leaves in the buffer: the bytes read in front, the old
    contents behind them. *)
Lemma read_into_spec (buf payload : bytes) :
  let '(buf', n) := read_into buf payload in
  n = length payload `min` length buf
  ∧ length buf' = length buf
  ∧ take n buf' = take (length buf) payload.
Proof.
  unfold read_into. split_and!; [done|apply length_go_copy|].
  unfold go_copy.
  assert (length (take (length buf) payload)
          = length payload `min` length buf) as Hlen
    by (rewrite length_take; lia).
  by rewrite <- Hlen, take_app_length.
Qed.

Lemma addr_len_bytes (a : option bytes) : length (addr_bytes a) = addr_len a.
Proof. by destruct a. Qed.

Section FramingFacts.
Context `{AddrCodec}.

(** The server-to-client pass, when prefix and payload fit the buffer. *)
Lemma frame_remoteServer_fits (buf : bytes) (n : nat) (raddr : string) :
  addr_len (ParseAddr raddr) + n ≤ length buf →
  snd (frame_remoteServer buf n raddr)
  = Write (addr_bytes (ParseAddr raddr) ++ take n buf).
Proof.
  intros Hfit. unfold frame_remoteServer.
  pose proof (addr_len_bytes (ParseAddr raddr)) as Hpre.
  set (pre := addr_bytes (ParseAddr raddr)) in *.
  set (L := addr_len (ParseAddr raddr)) in *.
  rewrite slice_front by lia.
  unfold copy_at. destruct (Nat.leb_spec L (length buf)); [|lia].
  set (buf1 := take L buf ++ go_copy (drop L buf) (take n buf)).
  assert (length buf1 = length buf) as Hlen1.
  { unfold buf1. rewrite length_app, length_take, length_go_copy, length_drop.
    lia. }
  assert (go_copy buf1 pre = pre ++ take n buf ++ drop (L + n) buf) as ->.
  { unfold go_copy at 1. rewrite take_ge by lia. f_equal.
    rewrite Hpre. unfold buf1.
    rewrite drop_app_length' by (rewrite length_take; lia).
    unfold go_copy. rewrite length_drop, length_take.
    rewrite take_ge by (rewrite length_take; lia).
    f_equal. rewrite drop_drop. f_equal. lia. }
  rewrite slice_front by (rewrite !length_app, !length_take, length_drop; lia).
  simpl. f_equal.
  rewrite take_app_add' by lia.
  f_equal. rewrite take_app_length'; [done|]. rewrite length_take. lia.
Qed.


(** The client-to-user pass: the bytes behind whatever [SplitAddr]
    returned, all of them when it returned nil. *)
Lemma frame_relayClient_spec (buf : bytes) (n : nat) :
  n ≤ length buf →
  addr_len (SplitAddr (take n buf)) ≤ n →
  snd (frame_relayClient buf n)
  = Write (drop (addr_len (SplitAddr (take n buf))) (take n buf)).
Proof.
  intros Hn Hlen. unfold frame_relayClient.
  rewrite slice_front by done.
  rewrite slice_from by lia. simpl. f_equal.
  by rewrite take_drop_commute, Nat.add_comm, Nat.sub_add.
Qed.

Lemma frame_socksClient_spec (buf : bytes) (n : nat) :
  n ≤ length buf →
  snd (frame_socksClient buf n) = Write ([x00; x00; x00] ++ take n buf).
Proof. intros Hn. unfold frame_socksClient. by rewrite slice_front. Qed.
End FramingFacts.

(** ** One pass of the copy loop *)

Section PassFacts.
Context `{AddrCodec}.



Lemma relay_once_relayClient (buf payload : bytes) (raddr : string) :
  length payload ≤ length buf →
  addr_len (SplitAddr payload) ≤ length payload →
  snd (relay_once relayClient buf payload raddr)
  = Write (drop (addr_len (SplitAddr payload)) payload).
Proof.
  intros Hfit Hlen. unfold relay_once.
  pose proof (read_into_spec buf payload) as Hread.
  destruct (read_into buf payload) as [buf' n].
  destruct Hread as (-> & Hlen' & Htake). simpl.
  rewrite (take_ge payload) in Htake by lia.
  rewrite frame_relayClient_spec; rewrite ?Htake; try lia.
  done.
Qed.

Lemma relay_once_socksClient (buf payload : bytes) (raddr : string) :
  relay_once socksClient buf payload raddr
  = (go_copy buf payload, Write ([x00; x00; x00] ++ take (length buf) payload)).
Proof.
  pose proof (read_into_spec buf payload) as Hread.
  unfold relay_once. unfold read_into in *. simpl.
  destruct Hread as (_ & _ & Htake). unfold frame_socksClient.
  rewrite slice_front by (rewrite length_go_copy; lia).
  by rewrite Htake.
Qed.
End PassFacts.

(** ** The codec of RFC 1928 splits what it parses *)

Lemma Socks5_announced (s : string) (p rest : bytes) :
  Socks5.ParseAddr s = Some p →
  Socks5.announced (p ++ rest) = Some (length p).
Proof.
  unfold Socks5.ParseAddr. intros Hp.
  destruct (Socks5.SplitHostPort _) as [[host port]|]; [|done].
  simpl in Hp.
  destruct (match Socks5.ParseIP host with Some _ => _ | None => _ end)
    as [body|] eqn:Hbody; [|done].
  simpl in Hp.
  destruct (Socks5.numeral 10 Socks5.digit port) as [portnum|];
    simpl in Hp; [|done].
  destruct (65535 <? portnum)%N; [done|].
  injection Hp as <-. rewrite length_app. simpl.
  destruct (Socks5.ParseIP host) as [ip|].
  - destruct (Nat.eqb_spec (length ip) 4) as [H4|_].
    + injection Hbody as <-. simpl. by rewrite H4.
    + destruct (Nat.eqb_spec (length ip) 16) as [H16|_]; [|done].
      injection Hbody as <-. simpl. by rewrite H16.
  - destruct (Byte.of_nat (length host)) as [l|] eqn:Hl;
      simpl in Hbody; [|done].
    injection Hbody as <-. simpl.
    rewrite length_map, (Byte.to_of_nat _ Hl); f_equal; lia.
Qed.

Lemma Socks5_split_parse (s : string) (p rest : bytes) :
  Socks5.ParseAddr s = Some p → Socks5.SplitAddr (p ++ rest) = Some p.
Proof.
  intros Hp. unfold Socks5.SplitAddr.
  rewrite (Socks5_announced s p rest Hp). simpl.
  destruct (Nat.ltb_spec (length (p ++ rest)) (length p)) as [Hlt|_].
  - rewrite length_app in Hlt. lia.
  - by rewrite take_app_length.
Qed.

(** ** The copy loop in the role [socksClient] *)

Lemma timedCopy_socksClient_writes `{AddrCodec} (env : list arrival) :
  ∀ (timeout now : Z) (buf : bytes),
    writes (timedCopy socksClient timeout now buf env).1.1
    = map (λ rp, [x00; x00; x00] ++ rp.2)
          (delivered (length buf) timeout now env).
Proof.
  induction env as [|[t raddr payload werr|t e] env IH]; intros timeout now buf.
  - done.
  - simpl. destruct (in_time now (now + timeout) t); [|done].
    rewrite relay_once_socksClient.
    destruct werr as [e|]; [done|].
    specialize (IH timeout (now `max` t)%Z (go_copy buf payload)).
    destruct (timedCopy socksClient timeout _ _ env) as [[tr r] c].
    simpl in *. by rewrite IH, length_go_copy.
  - simpl. by destruct (in_time now (now + timeout) t).
Qed.

(** C6.  In the role [socksClient] the datagrams written by [timedCopy]
    are, in order, the payloads of the reads that succeeded, each behind
    the three bytes 0, 0, 0 and otherwise unchanged; a read of the two
    bytes 0x61, 0x62 is written as 0x00, 0x00, 0x00, 0x61, 0x62. *)
Theorem socksClient_header_synthesis :
  (∀ (codec : AddrCodec) (timeout now : Z) (buf : bytes) (env : list arrival),
     writes (timedCopy socksClient timeout now buf env).1.1
     = map (λ rp, [x00; x00; x00] ++ rp.2)
           (delivered (length buf) timeout now env))
  ∧ writes (@timedCopy Socks5.codec socksClient 300 0
              (replicate udpBufSize x00)
              [Datagram 1 "192.0.2.1:5353" [x61; x62] None]).1.1
    = [[x00; x00; x00; x61; x62]].
Proof.
  split.
  - intros. apply timedCopy_socksClient_writes.
  - vm_compute. reflexivity.
Qed.

(** ** The copy loop in the role [remoteServer] *)

(** C2, at an input the code can meet: a reply of 65527 bytes, the
    largest UDP payload over IPv6, from the source [2001:db8::1]:9000,
    whose prefix has 19 bytes.  Prefix and payload exceed the 65536 bytes
    of the buffer, [buf[:len(srcAddr)+n]] is out of range, and the loop
    panics with nothing written. *)
Theorem remoteServer_oversize_panics :
  addr_len (Socks5.ParseAddr "[2001:db8::1]:9000") = 19
  ∧ @timedCopy Socks5.codec remoteServer 300 0 (replicate udpBufSize x00)
      [Datagram 1 "[2001:db8::1]:9000" (replicate (udpBufSize - 9) x61) None]
    = ([SetReadDeadline 300; ReadFrom 0], Panicked, 1%Z).
Proof. split; vm_compute; reflexivity. Qed.

(** The same role on a reply that fits: from the source 203.0.113.5:9000
    the two bytes 0x61, 0x62 are written behind the seven bytes of the
    prefix. *)
Example remoteServer_small_reply :
  writes (@timedCopy Socks5.codec remoteServer 300 0
            (replicate udpBufSize x00)
            [Datagram 1 "203.0.113.5:9000" [x61; x62] None]).1.1
  = [[x01; xcb; x00; x71; x05; x23; x28; x61; x62]].
Proof. vm_compute. reflexivity. Qed.

(** ** Malformed datagrams *)

Lemma drain_turn_malformed `{AddrCodec} (data : bytes) (resolve_ok : bool) :
  SplitAddr data = None → drain_turn data resolve_ok = None.
Proof. intros Hnil. unfold drain_turn. by rewrite Hnil. Qed.

Lemma relayClient_nil_forwards `{AddrCodec} (buf payload : bytes)
    (raddr : string) :
  length payload ≤ length buf → SplitAddr payload = None →
  snd (relay_once relayClient buf payload raddr) = Write payload.
Proof.
  intros Hfit Hnil. rewrite relay_once_relayClient by (rewrite ?Hnil; simpl; lia).
  by rewrite Hnil.
Qed.

(** C4, at an input the code can meet: the two bytes 0x00, 0x61 begin
    with no address type, so [SplitAddr] returns nil.  The drain loop of
    [udpRemote] gives the datagram up with nothing written; the copy loop
    in the role [relayClient] writes all of it to the user. *)
Theorem relayClient_forwards_malformed :
  Socks5.SplitAddr [x00; x61] = None
  ∧ @drain_turn Socks5.codec [x00; x61] true = None
  ∧ writes (@timedCopy Socks5.codec relayClient 300 0
              (replicate udpBufSize x00)
              [Datagram 1 "198.51.100.7:4000" [x00; x61] None]).1.1
    = [[x00; x61]].
Proof. split_and!; vm_compute; reflexivity. Qed.

(** ** Prefix on, prefix off *)



(** ** Removal from the NAT table *)

Lemma natmap_Del_absent (key : string) (m : natmap) :
  nm_m m !! key = None → natmap_Del key m = (None, m).
Proof. intros Hnone. unfold natmap_Del. by rewrite Hnone. Qed.

Lemma reap_twice (key : string) (m : natmap) :
  let '(closed1, m1) := reap key m in
  let '(closed2, m2) := reap key m1 in
  length (closed1 ++ closed2) ≤ 1 ∧ closed2 = [] ∧ m2 = m1.
Proof.
  unfold reap, natmap_Del.
  destruct (nm_m m !! key) as [pc|] eqn:Hm; simpl.
  - rewrite lookup_delete_eq. destruct pc; simpl; auto.
  - rewrite Hm. simpl. auto.
Qed.

(** C7.  [Del] after [Set] removes the entry and returns the stored
    connection; [Del] once more returns nil and leaves the table as it
    is.  Hence of two runs of the teardown of [Add] for one key, in
    whatever table, at most one calls [Close], the second never does; and
    after [Add] exactly the first does, on the socket added. *)
Theorem natmap_Del_idempotent :
  ∀ (key : string) (pc : PacketConn) (m : natmap),
    let m' := {| nm_m := delete key (nm_m m); nm_timeout := nm_timeout m |} in
    natmap_Del key (natmap_Set key pc m) = (pc, m')
    ∧ natmap_Del key m' = (None, m')
    ∧ (let '(closed1, m1) := reap key m in
       let '(closed2, m2) := reap key m1 in
       length (closed1 ++ closed2) ≤ 1 ∧ closed2 = [] ∧ m2 = m1)
    ∧ (∀ (dst : PacketConn) (src : socket) (role : mode),
         let '(closed1, m1) :=
           reap key (natmap_Add key dst (Some src) role m).1 in
         let '(closed2, m2) := reap key m1 in
         closed1 = [src] ∧ closed2 = [] ∧ m1 = m' ∧ m2 = m').
Proof.
  intros key pc m m'. split_and!.
  - unfold natmap_Del, natmap_Set. simpl.
    by rewrite lookup_insert_eq, delete_insert_eq.
  - apply natmap_Del_absent. simpl. apply lookup_delete_eq.
  - apply reap_twice.
  - intros dst src role. unfold reap, natmap_Add, natmap_Del, natmap_Set.
    simpl. rewrite lookup_insert_eq, delete_insert_eq. simpl.
    by rewrite lookup_delete_eq.
Qed.

(** ** Short datagrams at the SOCKS5 listener *)

(** C10.  A datagram of fewer than three bytes, from a peer that has a
    session or for which a socket can be opened, makes [buf[3:n]] an
    invalid slice expression: the pass of [udpSocksLocal] panics.  Nothing
    in the pass checks [n] against the three bytes of the header. *)
Theorem udpSocksLocal_short_datagram_panics (st : socks_state) (buf : bytes)
    (inp : socks_input) (raddr : string) (payload : bytes) :
  length buf = udpBufSize →
  in_read inp = inr (raddr, payload) →
  length payload < 3 →
  natmap_Get raddr (ss_nm st) ≠ None ∨ in_listen_ok inp = true →
  ∃ st', (udpSocksLocal_pass st buf inp).2 = Crash st'.
Proof.
  intros Hbuf Hread Hshort Hsession. unfold udpSocksLocal_pass.
  rewrite Hread.
  pose proof (read_into_spec buf payload) as Hr.
  destruct (read_into buf payload) as [buf' n].
  destruct Hr as (Hn & Hlen & _).
  assert (slice buf' 3 n = None) as Hslice by (apply slice_inverted; lia).
  assert (3 ≤ length buf') as Hroom by (rewrite Hlen, Hbuf; unfold udpBufSize; lia).
  destruct (natmap_Get raddr (ss_nm st)) as [pc|].
  - simpl. unfold socks_forward. rewrite Hslice. eauto.
  - destruct Hsession as [|Hok]; [done|].
    unfold socks_create. rewrite Hok, slice_from by lia. simpl.
    unfold socks_forward. rewrite Hslice. eauto.
Qed.

Lemma udpSocksLocal_short_datagram_example :
  ∃ st',
    (udpSocksLocal_pass
       {| ss_nm := newNATmap 300; ss_spawned := []; ss_sent := [];
          ss_closed := [] |}
       (replicate udpBufSize x00)
       {| in_read := inr ("192.0.2.9:40000", [x00; x00]);
          in_listen_ok := true; in_write_ok := true |}).2 = Crash st'.
Proof.
  apply (udpSocksLocal_short_datagram_panics _ _ _ "192.0.2.9:40000"
           [x00; x00]).
  - apply length_replicate.
  - reflexivity.
  - simpl. lia.
  - right. reflexivity.
Defined.

(** ** Idle expiry *)







(** ** The role passed by [udpRemote] *)

(** C3, at the call of line 215, [timedCopy(raddr, c, pc,
    config.UDPTimeout, true)]: against the parameters [(dst
    net.PacketConn, target net.Addr, src net.PacketConn, timeout
    time.Duration, role mode)] the call is ill-typed, its fifth argument
    is the constant [true] and no [mode], so it selects no role; the call
    of line 285 in [natmap.Add] is well-typed and passes a role. *)
Theorem udpRemote_call_passes_no_role :
  well_typed_call call_udpRemote = false
  ∧ passes_role call_udpRemote = false
  ∧ call_udpRemote !! 4 = Some TUntypedBool
  ∧ well_typed_call call_natmap_Add = true
  ∧ passes_role call_natmap_Add = true.
Proof. split_and!; reflexivity. Qed.

(** ** The sessions of [udpLocal] and [udpRemote] *)

Section RelayInvariant.
Import Relay.

(** What the table and the mutex say about one session. *)
Definition sess_ok (m : gmap string nat) (lk : option holder) (i : nat)
    (x : session) : Prop :=
  (in_table (s_ret x) = true → m !! s_key x = Some i)
  ∧ (ret_holds (s_ret x) = true → lk = Some (Return i))
  ∧ (s_open x = true → s_ret x = RCopy ∨ s_ret x = RClose)
  ∧ (s_closed x = true → in_table (s_ret x) = false)
  ∧ length (s_inbox x) ≤ 1.

(** Every entry of the table is the channel of a session of that peer
    whose entry has not been deleted. *)
Definition entry_ok (m : gmap string nat) (l : list session) : Prop :=
  ∀ k i, m !! k = Some i →
    ∃ x, l !! i = Some x ∧ s_key x = k ∧ in_table (s_ret x) = true.

(** The invariant of the two listeners: the sessions and the table agree,
    the mutex is held by whoever is inside a critical section, and a peer
    that the listener has found absent is absent. *)
Record relay_inv (s : state) : Prop := {
  inv_sess : ∀ i x, sessions s !! i = Some x → sess_ok (tbl s) (lock s) i x;
  inv_entry : entry_ok (tbl s) (sessions s);
  inv_holds : lis_holds (lis s) = true → lock s = Some Listener;
  inv_create : ∀ k p, lis s = LCreate k p → tbl s !! k = None
}.

(** A property of all sessions after one of them has changed. *)
Lemma alter_all (P P' : nat → session → Prop) (l : list session) (j : nat)
    (f : session → session) :
  (∀ i x, l !! i = Some x → P i x) →
  (∀ i x, l !! i = Some x → i ≠ j → P i x → P' i x) →
  (∀ x, l !! j = Some x → P j x → P' j (f x)) →
  ∀ i x, alter f j l !! i = Some x → P' i x.
Proof.
  intros HP Hother Hj i x. rewrite list_lookup_alter. case_decide as Hij.
  - subst i. destruct (l !! j) as [y|] eqn:Hy; [|done].
    intros [= <-]. eauto.
  - intros Hi. eauto.
Qed.

(** The entries stay sessions when a session changes neither its key nor
    its place in the table. *)
Lemma entry_alter (m : gmap string nat) (l : list session) (j : nat)
    (f : session → session) :
  entry_ok m l →
  (∀ x, l !! j = Some x →
        s_key (f x) = s_key x
        ∧ (in_table (s_ret x) = true → in_table (s_ret (f x)) = true)) →
  entry_ok m (alter f j l).
Proof.
  intros He Hf k i Hk. destruct (He k i Hk) as (x & Hi & Hkey & Hin).
  rewrite list_lookup_alter. case_decide as Hij.
  - subst i. rewrite Hi. simpl. destruct (Hf x Hi) as [Hk' Hin'].
    eexists. split_and!; [done|congruence|auto].
  - eauto.
Qed.

Ltac sess_ok_tac :=
  unfold sess_ok in *; simpl in *;
  repeat match goal with
  | H : s_ret _ = _ |- _ => rewrite H in *
  end; simpl in *;
  intuition (try congruence; try discriminate; try lia).

Lemma relay_inv_init : relay_inv init.
Proof. by split. Qed.

(** Every step of every goroutine keeps the invariant. *)
Lemma relay_inv_step tgt a s s' :
  relay_inv s → step tgt a s = Some s' → relay_inv s'.
Proof.
  intros [Hs He Hl Hc] Hstep. unfold step in Hstep.
  destruct (crashed s); [done|].
  destruct a as [k payload ok|g| |ok|g| |i|i|i|i].
  - (* ARead *)
    unfold step_read, get in Hstep.
    destruct (lis s) eqn:Hlis; try done.
    destruct (pool s), (udpBufSize <? length tgt), ok; simplify_eq/=;
      split; simpl; try done; rewrite ?Hlis in *; try done.
  - (* ALock *)
    unfold step_lock in Hstep.
    destruct (lock s) eqn:Hlock; [done|].
    destruct g as [|i].
    + destruct (lis s) eqn:Hlis; simplify_eq/=.
      split; simpl; try done.
      intros i x Hi. specialize (Hs i x Hi). sess_ok_tac.
    + destruct (sessions s !! i) as [x|] eqn:Hi; simplify_eq/=.
      destruct (s_ret x) eqn:Hret; simplify_eq/=.
      split; simpl.
      * apply (alter_all _ _ _ _ _ Hs).
        -- intros j y Hj Hne Hy. sess_ok_tac.
        -- intros y Hy Hok. simplify_eq. sess_ok_tac.
      * apply entry_alter; [done|]. intros y Hy. simplify_eq. by rewrite Hret.
      * intros Hh. specialize (Hl Hh). done.
      * done.
  - (* ALookup *)
    unfold step_lookup in Hstep.
    destruct (lis s) eqn:Hlis; simplify_eq/=.
    destruct (tbl s !! k) eqn:Hk; simplify_eq/=;
      split; simpl; try done; auto.
    intros k' p' [= <- <-]. done.
  - (* ACreate *)
    unfold step_create in Hstep.
    destruct (lis s) eqn:Hlis; simplify_eq/=.
    specialize (Hc k p eq_refl).
    destruct ok; simplify_eq/=; [|by split; simpl; auto].
    split; simpl; [| |auto|done].
    + intros i x Hi. apply lookup_app_Some in Hi as [Hi|[Hlen Hi]].
      * specialize (Hs i x Hi).
        assert (in_table (s_ret x) = true → s_key x ≠ k) as Hne.
        { intros Hin Hk. destruct Hs as [Hs _]. specialize (Hs Hin).
          rewrite Hk in Hs. by rewrite Hs in Hc. }
        unfold sess_ok in *. split_and!; try tauto.
        intros Hin. rewrite lookup_insert_ne; [tauto|].
        intros Heq. by apply (Hne Hin).
      * destruct (i - length (sessions s)) as [|n] eqn:Hn; simplify_eq/=.
        assert (i = length (sessions s)) as -> by lia.
        unfold sess_ok. simpl. split_and!; auto; try done; try lia.
        intros _. apply lookup_insert_eq.
    + intros k' i Hk'. destruct (decide (k = k')) as [<-|Hne].
      * rewrite lookup_insert_eq in Hk'. simplify_eq.
        exists (new_session k). split_and!; try done.
        rewrite lookup_app_r by done. by rewrite Nat.sub_diag.
      * rewrite lookup_insert_ne in Hk' by done.
        destruct (He k' i Hk') as (x & Hi & Hx). exists x. split; [|done].
        by apply lookup_app_l_Some.
  - (* AUnlock *)
    unfold step_unlock in Hstep. destruct g as [|i].
    + destruct (lis s) eqn:Hlis; simplify_eq/=.
      specialize (Hl eq_refl).
      split; simpl; try done.
      intros i x Hi. specialize (Hs i x Hi). sess_ok_tac.
    + destruct (sessions s !! i) as [x|] eqn:Hi; simplify_eq/=.
      destruct (s_ret x) eqn:Hret; simplify_eq/=.
      pose proof (Hs i x Hi) as Hx.
      assert (lock s = Some (Return i)) as Hlock by sess_ok_tac.
      split; simpl.
      * apply (alter_all _ _ _ _ _ Hs).
        -- intros j y Hj Hne Hy. sess_ok_tac.
        -- intros y Hy Hok. simplify_eq. sess_ok_tac.
      * apply entry_alter; [done|]. intros y Hy. simplify_eq. by rewrite Hret.
      * intros Hh. specialize (Hl Hh). congruence.
      * done.
  - (* ASelect *)
    unfold step_select in Hstep.
    destruct (lis s) as [| | | | |[i|] p] eqn:Hlis; simplify_eq/=.
    + destruct (sessions s !! i) as [x|] eqn:Hi; simplify_eq/=.
      destruct (s_closed x) eqn:Hcl; simplify_eq/=.
      { split; simpl; rewrite ?Hlis; done. }
      destruct (length (s_inbox x) <? 1) eqn:Hroom; simplify_eq/=.
      * split; simpl; try done.
        -- apply (alter_all _ _ _ _ _ Hs); [done|].
           intros y Hy Hok. simplify_eq. apply Nat.ltb_lt in Hroom.
           unfold sess_ok in *. simpl. rewrite length_app. simpl.
           intuition lia.
        -- apply entry_alter; [done|]. by intros y Hy.
      * split; simpl; try done.
    + split; simpl; try done.
  - (* ADrain *)
    unfold step_drain in Hstep.
    destruct (sessions s !! i) as [x|] eqn:Hi; simplify_eq/=.
    destruct (s_inbox x) eqn:Hin; simplify_eq/=.
    split; simpl; try done.
    + apply (alter_all _ _ _ _ _ Hs); [done|].
      intros y Hy Hok. simplify_eq.
      unfold sess_ok in *. rewrite Hin in Hok. simpl in *. intuition lia.
    + apply entry_alter; [done|]. by intros y Hy.
  - (* AExit *)
    unfold step_exit in Hstep.
    destruct (sessions s !! i) as [x|] eqn:Hi; simplify_eq/=.
    destruct (s_ret x) eqn:Hret; simplify_eq/=.
    split; simpl; try done.
    + apply (alter_all _ _ _ _ _ Hs); [done|].
      intros y Hy Hok. simplify_eq. sess_ok_tac.
    + apply entry_alter; [done|]. intros y Hy. simplify_eq. by rewrite Hret.
  - (* AClose *)
    unfold step_close in Hstep.
    destruct (sessions s !! i) as [x|] eqn:Hi; simplify_eq/=.
    destruct (s_ret x) eqn:Hret; simplify_eq/=.
    split; simpl; try done.
    + apply (alter_all _ _ _ _ _ Hs); [done|].
      intros y Hy Hok. simplify_eq. sess_ok_tac.
    + apply entry_alter; [done|]. intros y Hy. simplify_eq. by rewrite Hret.
  - (* ARemove *)
    unfold step_remove in Hstep.
    destruct (sessions s !! i) as [x|] eqn:Hi; simplify_eq/=.
    destruct (s_ret x) eqn:Hret; simplify_eq/=.
    pose proof (Hs i x Hi) as Hx.
    assert (tbl s !! s_key x = Some i) as Htbl by sess_ok_tac.
    assert (∀ c f, (∀ y, s_key (f y) = s_key y ∧ s_inbox (f y) = s_inbox y
                         ∧ s_open (f y) = s_open y ∧ s_ret (f y) = RRelease) →
            relay_inv
              {| tbl := delete (s_key x) (tbl s); lock := lock s;
                 sessions := alter f i (sessions s); lis := lis s;
                 pool := pool s; fresh := fresh s; crashed := c |})
      as Hmain.
    { intros c f Hf. split; simpl.
      - apply (alter_all _ _ _ _ _ Hs).
        + intros j y Hj Hne Hy.
          assert (in_table (s_ret y) = true → s_key y ≠ s_key x) as Hk.
          { intros Hin Hk. destruct Hy as [Hy _]. specialize (Hy Hin).
            rewrite Hk in Hy. congruence. }
          unfold sess_ok in *. split_and!; try tauto.
          intros Hin. rewrite lookup_delete_ne; [tauto|].
          intros Heq. by apply (Hk Hin).
        + intros y Hy Hok. simplify_eq.
          destruct (Hf x) as (Hk & Hq & Hop & Hr).
          unfold sess_ok in *. rewrite Hk, Hq, Hop, Hr. rewrite Hret in Hok.
          simpl in *. intuition (try congruence; try discriminate).
      - intros k j Hk. apply lookup_delete_Some in Hk as [Hne Hk].
        destruct (He k j Hk) as (y & Hj & Hkey & Hin).
        exists y. split; [|done].
        rewrite list_lookup_alter_ne; [done|]. intros <-. congruence.
      - done.
      - intros k p Hlis. apply lookup_delete_None. right. by eapply Hc. }
    rewrite Htbl, Hi in Hstep.
    destruct (s_closed x); simplify_eq/=.
    + unfold crash, upd, set_sessions, set_tbl. simpl.
      apply Hmain. by intros y.
    + unfold upd, set_sessions, set_tbl. simpl.
      rewrite list_alter_alter_eq. apply Hmain. by intros y.
Qed.

Lemma relay_inv_run tgt tr : ∀ s s',
  relay_inv s → run tgt tr s = Some s' → relay_inv s'.
Proof.
  induction tr as [|a tr IH]; intros s s' Hinv Hrun; simplify_eq/=; [done|].
  destruct (step tgt a s) as [s1|] eqn:Hstep; simplify_eq/=.
  eapply IH; [|done]. by eapply relay_inv_step.
Qed.

Lemma relay_inv_reachable tgt s : reachable tgt s → relay_inv s.
Proof. intros [tr Hrun]. eapply relay_inv_run; [apply relay_inv_init|done]. Qed.








Lemma relay_backlog_reachable : reachable [] relay_backlog_state.
Proof. exists relay_backlog. vm_compute. reflexivity. Qed.

End RelayInvariant.

(** ** The sessions of [udpSocksLocal] *)

Section SocksInvariant.
Import SocksRelay.

(** What the table says about the goroutine of one forwarding socket. *)
Definition gor_ok (m : gmap string PacketConn) (c : nat) (g : goroutine)
    : Prop :=
  pending (g_at g) = true →
  m !! rp_peer (g_args g) = Some (Some (Forwarding c)).

Definition socks_entry_ok (m : gmap string PacketConn) (l : list goroutine)
    : Prop :=
  ∀ k pc, m !! k = Some pc →
    ∃ c g, pc = Some (Forwarding c) ∧ l !! c = Some g
           ∧ rp_peer (g_args g) = k ∧ pending (g_at g) = true.

(** The invariant of [udpSocksLocal]: the goroutines and the table agree,
    and a peer that the listener has found absent is absent. *)
Record socks_inv (s : state) : Prop := {
  sinv_gor : ∀ c g, ss_spawned (st s) !! c = Some g →
                    gor_ok (nm_m (ss_nm (st s))) c g;
  sinv_entry : socks_entry_ok (nm_m (ss_nm (st s))) (ss_spawned (st s));
  sinv_create : ∀ k n inp, lis s = LCreate k n inp →
                           nm_m (ss_nm (st s)) !! k = None
}.

Lemma socks_inv_init timeout : socks_inv (init timeout).
Proof. by split. Qed.

(** Forwarding a datagram changes neither the table nor the goroutines. *)
Lemma socks_forward_same (s : socks_state) (b : bytes) (n : nat)
    (pc : socket) (inp : socks_input) :
  ∃ st' c,
    settle b (socks_forward s b n pc inp)
    = {| st := st'; buf := b; lis := LRead; crashed := c |}
    ∧ ss_nm st' = ss_nm s ∧ ss_spawned st' = ss_spawned s.
Proof.
  unfold socks_forward.
  destruct (slice b 3 n); [destruct (in_write_ok inp)|]; simpl; eauto.
Qed.

(** Every step of every goroutine keeps the invariant. *)
Lemma socks_inv_step a s s' :
  socks_inv s → step a s = Some s' → socks_inv s'.
Proof.
  intros [Hg He Hc] Hstep. unfold step in Hstep.
  destruct (crashed s); [done|].
  destruct a as [inp| |c|c|c].
  - (* AGet *)
    unfold step_get in Hstep.
    destruct (lis s) eqn:Hlis; [|done].
    destruct (in_read inp) as [e|[raddr payload]].
    { injection Hstep as <-. split; [done|done|]. by rewrite Hlis. }
    destruct (read_into (buf s) payload) as [b n].
    destruct (natmap_Get raddr (ss_nm (st s))) as [pc|] eqn:Hget;
      injection Hstep as <-.
    + destruct (socks_forward_same (st s) b n pc inp)
        as (st' & c & -> & Hnm & Hsp).
      split; simpl; rewrite ?Hnm, ?Hsp; done.
    + split; simpl; [done|done|].
      intros k n' inp' [= <- <- <-].
      unfold natmap_Get in Hget.
      destruct (nm_m (ss_nm (st s)) !! raddr) as [pc|] eqn:Hm; [|done].
      destruct (He raddr pc Hm) as (c & g & -> & _). done.
  - (* AAdd *)
    unfold step_add in Hstep.
    destruct (lis s) as [|raddr n inp] eqn:Hlis; [done|].
    specialize (Hc raddr n inp eq_refl).
    unfold socks_create in Hstep.
    destruct (in_listen_ok inp); [|injection Hstep as <-; by split].
    destruct (slice (buf s) 3 (length (buf s)));
      [|injection Hstep as <-; by split].
    simpl in Hstep.
    match type of Hstep with
    | Some (settle _ (socks_forward ?x _ _ ?pc _)) = _ =>
      destruct (socks_forward_same x (buf s) n pc inp)
        as (st' & c & Hset & Hnm & Hsp)
    end.
    rewrite Hset in Hstep. injection Hstep as <-.
    split; simpl; rewrite ?Hnm, ?Hsp; simpl; [| |done].
    + intros c' g Hc'. apply lookup_app_Some in Hc' as [Hc'|[Hlen Hc']].
      * intros Hp. specialize (Hg c' g Hc' Hp).
        rewrite lookup_insert_ne; [done|].
        intros Heq. rewrite <- Heq in Hg. congruence.
      * destruct (c' - length (ss_spawned (st s))) as [|m] eqn:Hm;
          simplify_eq/=.
        assert (c' = length (ss_spawned (st s))) as -> by lia.
        intros _. simpl. apply lookup_insert_eq.
    + intros k pc Hk. destruct (decide (raddr = k)) as [<-|Hne].
      * rewrite lookup_insert_eq in Hk. simplify_eq.
        eexists _, _. split; [done|].
        split; [rewrite lookup_app_r by done; by rewrite Nat.sub_diag|done].
      * rewrite lookup_insert_ne in Hk by done.
        destruct (He k pc Hk) as (c' & g & -> & Hg' & Hx).
        exists c', g. split_and!; try tauto.
        by apply lookup_app_l_Some.
  - (* AExit *)
    unfold step_reaper in Hstep.
    destruct (ss_spawned (st s) !! c) as [g|] eqn:Hc'; [|done].
    simpl in Hstep. destruct (g_at g) eqn:Hat; simplify_eq/=.
    split; simpl; [| |done].
    + intros c' g' Hg'. rewrite list_lookup_alter in Hg'.
      case_decide; subst.
      * rewrite Hc' in Hg'. simplify_eq/=. intros _.
        apply (Hg c' g Hc'). by rewrite Hat.
      * by apply Hg.
    + intros k pc Hk. destruct (He k pc Hk) as (c' & g' & -> & Hg' & Hk' & Hp).
      exists c'. rewrite list_lookup_alter. case_decide; subst.
      * rewrite Hc'. simplify_eq/=. eexists. split_and!; done.
      * eauto.
  - (* ADel *)
    destruct (ss_spawned (st s) !! c) as [g|] eqn:Hc'; [|done].
    simpl in Hstep.
    destruct (natmap_Del _ _) as [pc nm'] eqn:Hdel.
    unfold step_reaper in Hstep. rewrite Hc' in Hstep. simpl in Hstep.
    destruct (g_at g) eqn:Hat; simplify_eq/=.
    pose proof (Hg c g Hc') as Hentry. unfold gor_ok in Hentry.
    rewrite Hat in Hentry. specialize (Hentry eq_refl).
    unfold natmap_Del in Hdel. rewrite Hentry in Hdel. simplify_eq/=.
    split; simpl.
    + intros c' g' Hg'. rewrite list_lookup_alter in Hg'.
      case_decide; subst.
      * rewrite Hc' in Hg'. simplify_eq/=. by intros ?.
      * intros Hp. pose proof (Hg c' g' Hg' Hp) as Hm.
        rewrite lookup_delete_ne; [done|]. intros Heq.
        rewrite Heq in Hentry. congruence.
    + intros k pc Hk. apply lookup_delete_Some in Hk as [Hne Hk].
      destruct (He k pc Hk) as (c' & g' & -> & Hg' & Hk' & Hp).
      exists c', g'. split_and!; try done.
      rewrite list_lookup_alter_ne; [done|]. intros <-. congruence.
    + intros k n inp Hlis. apply lookup_delete_None. right. by eapply Hc.
  - (* AClose *)
    unfold step_reaper in Hstep.
    destruct (ss_spawned (st s) !! c) as [g|] eqn:Hc'; [|done].
    simpl in Hstep.
    assert (pending (g_at g) = false ∧
            ∃ cl, s' = {| st := {| ss_nm := ss_nm (st s);
                                   ss_spawned := ss_spawned (set_at c RDone (st s));
                                   ss_sent := ss_sent (st s);
                                   ss_closed := cl |};
                          buf := buf s; lis := lis s; crashed := false |})
      as [Hnp [cl ->]].
    { destruct (g_at g) as [| |[pc|]|]; simplify_eq/=; eauto. }
    split; simpl; [| |done].
    + intros c' g' Hg'. rewrite list_lookup_alter in Hg'.
      case_decide; subst.
      * rewrite Hc' in Hg'. simplify_eq/=. by intros ?.
      * by apply Hg.
    + intros k pc Hk. destruct (He k pc Hk) as (c' & g' & -> & Hg' & Hk' & Hp).
      exists c', g'. split_and!; try done.
      rewrite list_lookup_alter_ne; [done|]. intros <-. congruence.
Qed.

Lemma socks_inv_run tr : ∀ s s',
  socks_inv s → run tr s = Some s' → socks_inv s'.
Proof.
  induction tr as [|a tr IH]; intros s s' Hinv Hrun; simplify_eq/=; [done|].
  destruct (step a s) as [s1|] eqn:Hstep; simplify_eq/=.
  eapply IH; [|done]. by eapply socks_inv_step.
Qed.

Lemma socks_inv_reachable timeout s : reachable timeout s → socks_inv s.
Proof. intros [tr Hrun]. eapply socks_inv_run; [apply socks_inv_init|done]. Qed.



(** One pass of [udpSocksLocal] is the step [AGet], followed by the step
    [AAdd] when [nm.Get] gave nil. *)
Lemma socks_pass_steps (s : state) (inp : socks_input) :
  lis s = LRead → crashed s = false →
  let '(b, o) := udpSocksLocal_pass (st s) (buf s) inp in
  run [AGet inp] s = Some (settle b o)
  ∨ run [AGet inp; AAdd] s = Some (settle b o).
Proof.
  intros Hlis Hrun. destruct s as [st0 buf0 lis0 crashed0].
  simpl in Hlis, Hrun. subst lis0 crashed0.
  unfold udpSocksLocal_pass, run, step, step_get, read_into. simpl.
  destruct (in_read inp) as [e|[raddr payload]]; simpl; [by left|].
  destruct (natmap_Get raddr (ss_nm st0)) as [pc|]; simpl; [by left|].
  unfold step_add. simpl.
  destruct (socks_create st0 _ raddr inp) as [[[pc st']|[pc st']]|]; simpl;
    by right.
Qed.
End SocksInvariant.

(** A send that comes after the teardown of its session: the listener has
    looked the channel up and released the mutex, the goroutine around
    [timedCopy] then closes the channel and deletes the entry, and the
    [select] of line 234 sends on a closed channel.  Such a channel is no
    longer the inbox of a peer in the table. *)
Remark stale_channel_send_panics :
  match Relay.run []
          (take 5 relay_backlog
           ++ [Relay.AExit 0; Relay.AClose 0; Relay.ALock (Relay.Return 0);
               Relay.ARemove 0; Relay.AUnlock (Relay.Return 0);
               Relay.ASelect])
          Relay.init with
  | Some s => Relay.crashed s = true ∧ Relay.tbl s = ∅
  | None => False
  end.
Proof. vm_compute. done. Qed.

(** ** One session per peer *)




(** In [udpSocksLocal] the entry goes before the socket is closed, so a
    peer can have two forwarding sockets open at once: the one of the
    session just removed and the one of its new session. *)
Lemma socks_overlap_eval :
  match SocksRelay.run socks_overlap (SocksRelay.init 300) with
  | Some s =>
    bool_decide (ss_closed (SocksRelay.st s) = [])
    && bool_decide
         (rp_peer ∘ g_args <$> ss_spawned (SocksRelay.st s)
          = ["198.51.100.2:5000"; "198.51.100.2:5000"])
  | None => false
  end = true.
Proof. vm_compute. reflexivity. Qed.

Lemma socks_two_open_sockets :
  ∃ s, SocksRelay.reachable 300 s
       ∧ SocksRelay.open_socket s "198.51.100.2:5000" 0
       ∧ SocksRelay.open_socket s "198.51.100.2:5000" 1.
Proof.
  pose proof socks_overlap_eval as Heval.
  destruct (SocksRelay.run socks_overlap (SocksRelay.init 300)) as [s|] eqn:Hrun;
    [|done].
  apply andb_prop in Heval as [Hclosed%bool_decide_eq_true
                               Hpeers%bool_decide_eq_true].
  exists s. split; [by exists socks_overlap|].
  unfold SocksRelay.open_socket. rewrite Hclosed.
  destruct (ss_spawned (SocksRelay.st s)) as [|g0 [|g1 l]]; simplify_eq/=.
  split; (split; [eauto|apply not_elem_of_nil]).
Qed.



(** * Further properties *)

(** ** The NAT table: lookup, insertion, removal *)

(** X1.  [Get] after [Set] returns the connection stored; the other keys
    are as before; a new table has no entry; [Set] leaves the timeout
    alone. *)
Theorem natmap_Get_Set (key key' : string) (pc : PacketConn) (m : natmap) :
  natmap_Get key (natmap_Set key pc m) = pc
  ∧ (key ≠ key' → natmap_Get key' (natmap_Set key pc m) = natmap_Get key' m)
  ∧ natmap_Get key (newNATmap (nm_timeout m)) = None
  ∧ nm_timeout (natmap_Set key pc m) = nm_timeout m.
Proof.
  unfold natmap_Get, natmap_Set. simpl. split_and!; try done.
  - by rewrite lookup_insert_eq.
  - intros Hne. by rewrite lookup_insert_ne.
Qed.

Lemma natmap_Get_Set_example :
  natmap_Get "192.0.2.9:40000"
    (natmap_Set "192.0.2.9:40000" (Some (Forwarding 0)) (newNATmap 300))
  = Some (Forwarding 0)
  ∧ ("192.0.2.9:40000" ≠ "192.0.2.10:40000" →
     natmap_Get "192.0.2.10:40000"
       (natmap_Set "192.0.2.9:40000" (Some (Forwarding 0)) (newNATmap 300))
     = natmap_Get "192.0.2.10:40000" (newNATmap 300))
  ∧ natmap_Get "192.0.2.9:40000" (newNATmap (nm_timeout (newNATmap 300)))
    = None
  ∧ nm_timeout
      (natmap_Set "192.0.2.9:40000" (Some (Forwarding 0)) (newNATmap 300))
    = nm_timeout (newNATmap 300).
Proof. apply natmap_Get_Set. Defined.

(** X2.  [Del] returns what [Get] returns for the key; after it [Get] of
    the key gives nil, and the other keys and the timeout are as
    before. *)
Theorem natmap_Del_frame (key key' : string) (m : natmap) :
  (natmap_Del key m).1 = natmap_Get key m
  ∧ natmap_Get key (natmap_Del key m).2 = None
  ∧ (key ≠ key' →
     natmap_Get key' (natmap_Del key m).2 = natmap_Get key' m)
  ∧ nm_timeout (natmap_Del key m).2 = nm_timeout m.
Proof.
  unfold natmap_Get, natmap_Del.
  destruct (nm_m m !! key) as [pc|] eqn:Hm; simpl; split_and!; try done.
  - by rewrite lookup_delete_eq.
  - intros Hne. by rewrite lookup_delete_ne.
  - by rewrite Hm.
Qed.

Lemma natmap_Del_frame_example :
  let m := natmap_Set "192.0.2.9:40000" (Some (Forwarding 0))
             (newNATmap 300) in
  (natmap_Del "192.0.2.9:40000" m).1 = natmap_Get "192.0.2.9:40000" m
  ∧ natmap_Get "192.0.2.9:40000" (natmap_Del "192.0.2.9:40000" m).2 = None
  ∧ ("192.0.2.9:40000" ≠ "192.0.2.10:40000" →
     natmap_Get "192.0.2.10:40000" (natmap_Del "192.0.2.9:40000" m).2
     = natmap_Get "192.0.2.10:40000" m)
  ∧ nm_timeout (natmap_Del "192.0.2.9:40000" m).2 = nm_timeout m.
Proof. intros m. apply natmap_Del_frame. Defined.

(** X3.  [Add] twice for one peer, with two sockets: the table holds the
    second socket, the teardown that runs first closes the second socket,
    the other teardown finds no entry and closes nothing, and the first
    socket is never closed. *)
Theorem natmap_Add_twice_closes_second (key : string) (dst1 dst2 : PacketConn)
    (src1 src2 : socket) (role1 role2 : mode) (m : natmap) :
  src1 ≠ src2 →
  let m1 := (natmap_Add key dst1 (Some src1) role1 m).1 in
  let m2 := (natmap_Add key dst2 (Some src2) role2 m1).1 in
  natmap_Get key m2 = Some src2
  ∧ (reap key m2).1 = [src2]
  ∧ (reap key (reap key m2).2).1 = []
  ∧ src1 ∉ (reap key m2).1 ++ (reap key (reap key m2).2).1.
Proof.
  intros Hne m1 m2. unfold m2, m1, reap, natmap_Add, natmap_Del, natmap_Set,
    natmap_Get. simpl.
  rewrite !lookup_insert_eq. simpl. rewrite lookup_delete_eq. simpl.
  split_and!; try done. intros Hin%list_elem_of_singleton. done.
Qed.

Lemma natmap_Add_twice_example :
  let m1 := (natmap_Add "192.0.2.9:40000" (Some Listening)
               (Some (Forwarding 0)) socksClient (newNATmap 300)).1 in
  let m2 := (natmap_Add "192.0.2.9:40000" (Some Listening)
               (Some (Forwarding 1)) socksClient m1).1 in
  natmap_Get "192.0.2.9:40000" m2 = Some (Forwarding 1)
  ∧ (reap "192.0.2.9:40000" m2).1 = [Forwarding 1]
  ∧ (reap "192.0.2.9:40000" (reap "192.0.2.9:40000" m2).2).1 = []
  ∧ Forwarding 0
    ∉ (reap "192.0.2.9:40000" m2).1
      ++ (reap "192.0.2.9:40000" (reap "192.0.2.9:40000" m2).2).1.
Proof.
  apply (natmap_Add_twice_closes_second "192.0.2.9:40000" (Some Listening)
           (Some Listening) (Forwarding 0) (Forwarding 1) socksClient
           socksClient (newNATmap 300)).
  discriminate.
Defined.

(** ** Whole runs of the copy loop *)

Lemma relay_once_buffer `{AddrCodec} (role : mode) (buf payload : bytes)
    (raddr : string) :
  length (relay_once role buf payload raddr).1 = length buf.
Proof.
  unfold relay_once, read_into.
  assert (length (go_copy buf payload) = length buf) as Hlen
    by apply length_go_copy.
  set (b := go_copy buf payload) in *. set (n := _ `min` _).
  destruct role; simpl.
  - unfold frame_remoteServer.
    destruct (slice b 0 n) as [p|]; [|done].
    destruct (copy_at b _ p) as [b1|] eqn:Hcopy; [|done].
    assert (length b1 = length b) as Hb1.
    { unfold copy_at in Hcopy.
      destruct (Nat.leb_spec (addr_len (ParseAddr raddr)) (length b));
        [|done].
      injection Hcopy as <-.
      rewrite length_app, length_take, length_go_copy, length_drop. lia. }
    destruct (slice (go_copy b1 _) 0 _); simpl; rewrite length_go_copy; lia.
  - unfold frame_relayClient.
    destruct (slice b 0 n) as [p|]; [|done].
    by destruct (slice b _ n).
  - unfold frame_socksClient. by destruct (slice b 0 n).
Qed.

Lemma relay_once_relayClient_read `{AddrCodec} (buf payload : bytes)
    (raddr : string) :
  let d := take (length buf) payload in
  addr_len (SplitAddr d) ≤ length d →
  (relay_once relayClient buf payload raddr).2
  = Write (drop (addr_len (SplitAddr d)) d).
Proof.
  intros d Hlen. unfold relay_once.
  pose proof (read_into_spec buf payload) as Hread.
  destruct (read_into buf payload) as [buf' n].
  destruct Hread as (-> & Hlen' & Htake). simpl.
  assert (length d = length payload `min` length buf) as Hd
    by (unfold d; rewrite length_take; lia).
  rewrite frame_relayClient_spec; rewrite ?Htake; fold d; try lia.
  done.
Qed.

(** X4.  In the role [socksClient] the copy loop never panics, whatever
    arrives and whatever the buffer: it ends by returning an error. *)
Theorem socksClient_never_panics `{AddrCodec} (env : list arrival) :
  ∀ (timeout now : Z) (buf : bytes),
    ∃ e, (timedCopy socksClient timeout now buf env).1.2 = Returned e.
Proof.
  induction env as [|[t raddr payload werr|t e] env IH]; intros timeout now buf;
    simpl.
  - eauto.
  - destruct (in_time now (now + timeout) t); [|eauto].
    rewrite relay_once_socksClient.
    destruct werr as [e|]; [eauto|].
    destruct (IH timeout (now `max` t)%Z (go_copy buf payload)) as [e He].
    destruct (timedCopy socksClient timeout _ _ env) as [[tr r] c]. eauto.
  - destruct (in_time now (now + timeout) t); eauto.
Qed.

(** The prefix the codec of RFC 1928 splits off is part of the datagram. *)
Lemma Socks5_split_length (b a : bytes) :
  Socks5.SplitAddr b = Some a → length a ≤ length b.
Proof.
  unfold Socks5.SplitAddr.
  destruct (Socks5.announced b) as [n|]; [|done]. simpl.
  destruct (length b <? n); [done|].
  intros [= <-]. rewrite length_take. lia.
Qed.

(** X5.  Let [SplitAddr] return a prefix no longer than its argument.  In
    the role [relayClient] the copy loop never panics, and the datagrams
    it writes are, in order, the datagrams read, each without the prefix
    that [SplitAddr] finds in it, and whole when [SplitAddr] gives nil. *)
Theorem relayClient_strips_prefix `{AddrCodec} (env : list arrival) :
  (∀ b a, SplitAddr b = Some a → length a ≤ length b) →
  ∀ (timeout now : Z) (buf : bytes),
    writes (timedCopy relayClient timeout now buf env).1.1
    = map (λ rp, drop (addr_len (SplitAddr rp.2)) rp.2)
          (delivered (length buf) timeout now env)
    ∧ ∃ e, (timedCopy relayClient timeout now buf env).1.2 = Returned e.
Proof.
  intros Hprefix.
  assert (∀ d, addr_len (SplitAddr d) ≤ length d) as Hlen.
  { intros d. destruct (SplitAddr d) as [a|] eqn:Ha; simpl; [eauto|lia]. }
  induction env as [|[t raddr payload werr|t e] env IH]; intros timeout now buf;
    simpl.
  - eauto.
  - destruct (in_time now (now + timeout) t); [|eauto].
    pose proof (relay_once_relayClient_read buf payload raddr (Hlen _)) as Hw.
    pose proof (relay_once_buffer relayClient buf payload raddr) as Hb.
    destruct (relay_once relayClient buf payload raddr) as [buf' o].
    simpl in Hw, Hb. subst o.
    destruct werr as [e|]; [eauto|].
    destruct (IH timeout (now `max` t)%Z buf') as [IHw [e He]].
    destruct (timedCopy relayClient timeout _ buf' env) as [[tr r] c].
    simpl in *. rewrite IHw, Hb. eauto.
  - destruct (in_time now (now + timeout) t); eauto.
Qed.

Lemma relayClient_strips_prefix_example :
  let env := [Datagram 1 "198.51.100.7:4000"
                [x01; xcb; x00; x71; x05; x23; x28; x61; x62] None;
              Datagram 2 "198.51.100.7:4000" [x00; x61] None] in
  writes (@timedCopy Socks5.codec relayClient 300 0
            (replicate udpBufSize x00) env).1.1
  = map (λ rp, drop (addr_len (Socks5.SplitAddr rp.2)) rp.2)
        (delivered (length (replicate udpBufSize x00)) 300 0 env)
  ∧ ∃ e, (@timedCopy Socks5.codec relayClient 300 0
            (replicate udpBufSize x00) env).1.2 = Returned e.
Proof.
  intros env. apply (@relayClient_strips_prefix Socks5.codec env).
  apply Socks5_split_length.
Defined.

(** X6.  In the role [remoteServer], when prefix and payload of every
    datagram read fit the buffer together, the copy loop never panics,
    and the datagrams it writes are, in order, the payloads read, each
    behind the prefix of its source address. *)
Theorem remoteServer_prepends_source `{AddrCodec} (env : list arrival) :
  ∀ (timeout now : Z) (buf : bytes),
    Forall (λ rp, addr_len (ParseAddr rp.1) + length rp.2 ≤ length buf)
           (delivered (length buf) timeout now env) →
    writes (timedCopy remoteServer timeout now buf env).1.1
    = map (λ rp, addr_bytes (ParseAddr rp.1) ++ rp.2)
          (delivered (length buf) timeout now env)
    ∧ ∃ e, (timedCopy remoteServer timeout now buf env).1.2 = Returned e.
Proof.
  induction env as [|[t raddr payload werr|t e] env IH]; intros timeout now buf;
    simpl.
  - eauto.
  - destruct (in_time now (now + timeout) t); [|eauto].
    intros [Hfit Hrest]%Forall_cons. simpl in Hfit.
    rewrite length_take in Hfit.
    assert ((relay_once remoteServer buf payload raddr).2
            = Write (addr_bytes (ParseAddr raddr)
                     ++ take (length buf) payload)) as Hw.
    { unfold relay_once.
      pose proof (read_into_spec buf payload) as Hread.
      destruct (read_into buf payload) as [buf' n].
      destruct Hread as (-> & Hlen' & Htake). simpl.
      rewrite frame_remoteServer_fits by lia. by rewrite Htake. }
    pose proof (relay_once_buffer remoteServer buf payload raddr) as Hb.
    destruct (relay_once remoteServer buf payload raddr) as [buf' o].
    simpl in Hw, Hb. subst o.
    destruct werr as [e|]; [eauto|].
    rewrite <- Hb in Hrest.
    destruct (IH timeout (now `max` t)%Z buf' Hrest) as [IHw [e He]].
    destruct (timedCopy remoteServer timeout _ buf' env) as [[tr r] c].
    simpl in *. rewrite IHw, Hb. eauto.
  - destruct (in_time now (now + timeout) t); eauto.
Qed.

Lemma remoteServer_prepends_source_example :
  let env := [Datagram 1 "203.0.113.5:9000" [x61; x62] None] in
  writes (@timedCopy Socks5.codec remoteServer 300 0
            (replicate udpBufSize x00) env).1.1
  = map (λ rp, addr_bytes (Socks5.ParseAddr rp.1) ++ rp.2)
        (delivered (length (replicate udpBufSize x00)) 300 0 env)
  ∧ ∃ e, (@timedCopy Socks5.codec remoteServer 300 0
            (replicate udpBufSize x00) env).1.2 = Returned e.
Proof.
  intros env. apply (@remoteServer_prepends_source Socks5.codec env).
  apply Forall_forall. intros rp Hrp. vm_compute in Hrp.
  apply list_elem_of_singleton in Hrp as ->.
  rewrite length_replicate.
  assert (addr_len (Socks5.ParseAddr "203.0.113.5:9000") = 7) as Hlen
    by (vm_compute; reflexivity).
  cbn [fst snd]. unfold ParseAddr, Socks5.codec. rewrite Hlen.
  unfold udpBufSize. simpl length. lia.
Defined.

Lemma last_arrival_cons (now : Z) (a : arrival) (env : list arrival) :
  last_arrival now (a :: env) = last_arrival (arrival_time a) env.
Proof.
  unfold last_arrival. rewrite fmap_cons, last_cons.
  by destruct (last (arrival_time <$> env)).
Qed.

(** X7.  Traffic keeps the copy loop running: when each datagram arrives
    less than the timeout after the one before and every write succeeds,
    the loop writes one datagram per arrival, and it returns the timeout
    error one timeout after the last arrival. *)
Theorem paced_traffic_keeps_loop `{AddrCodec} (env : list arrival) :
  ∀ (timeout now : Z) (buf : bytes),
    paced timeout now env →
    length (writes (timedCopy socksClient timeout now buf env).1.1)
    = length env
    ∧ (timedCopy socksClient timeout now buf env).1.2 = Returned ErrTimeout
    ∧ (timedCopy socksClient timeout now buf env).2
      = (last_arrival now env + timeout)%Z.
Proof.
  induction env as [|[t raddr payload werr|t e] env IH]; intros timeout now buf;
    simpl; [done| |done].
  intros ([Hlo Hhi] & -> & Hrest).
  assert (in_time now (now + timeout) t = true) as ->.
  { unfold in_time. apply andb_true_iff. split; apply Z.ltb_lt; lia. }
  rewrite relay_once_socksClient, last_arrival_cons. simpl.
  replace (now `max` t)%Z with t by lia.
  destruct (IH timeout t (go_copy buf payload) Hrest) as (Hw & Hr & Hc).
  destruct (timedCopy socksClient timeout t _ env) as [[tr r] c].
  simpl in *. by rewrite Hw.
Qed.

Lemma paced_traffic_keeps_loop_example :
  let env := [Datagram 100 "198.51.100.7:53" [x61] None;
              Datagram 350 "198.51.100.7:53" [x62] None] in
  length (writes (@timedCopy Socks5.codec socksClient 300 0
                    (replicate udpBufSize x00) env).1.1)
  = length env
  ∧ (@timedCopy Socks5.codec socksClient 300 0
       (replicate udpBufSize x00) env).1.2 = Returned ErrTimeout
  ∧ (@timedCopy Socks5.codec socksClient 300 0
       (replicate udpBufSize x00) env).2
    = (last_arrival 0 env + 300)%Z.
Proof.
  intros env. apply (@paced_traffic_keeps_loop Socks5.codec env).
  simpl. repeat split; lia.
Defined.

(** X19.  The first error ends the copy loop.  After datagrams that each
    arrive less than the timeout after the one before and are written,
    let the read of the next arrival, or the write of its datagram, fail
    in time with an error: the loop returns that error at that time,
    having written one datagram per datagram read, and nothing that
    arrives later is read. *)
Theorem first_error_ends_loop `{AddrCodec} (env : list arrival) :
  ∀ (timeout now : Z) (buf : bytes) (a : arrival) (rest : list arrival)
    (e : error),
    paced timeout now env →
    (last_arrival now env ≤ arrival_time a
     < last_arrival now env + timeout)%Z →
    failure a = Some e →
    timedCopy socksClient timeout now buf (env ++ a :: rest)
    = timedCopy socksClient timeout now buf (env ++ [a])
    ∧ (timedCopy socksClient timeout now buf (env ++ a :: rest)).1.2
      = Returned e
    ∧ (timedCopy socksClient timeout now buf (env ++ a :: rest)).2
      = arrival_time a
    ∧ length (writes (timedCopy socksClient timeout now buf
                        (env ++ a :: rest)).1.1)
      = length env + match a with Datagram _ _ _ _ => 1 | Broken _ _ => 0 end.
Proof.
  induction env as [|[t raddr payload werr|t e'] env IH];
    intros timeout now buf a rest e; simpl; [| |done].
  - intros _ Ht Hfail. unfold last_arrival in Ht. simpl in Ht.
    assert (in_time now (now + timeout) (arrival_time a) = true) as Hin.
    { unfold in_time. apply andb_true_iff. split; apply Z.ltb_lt; lia. }
    destruct a as [t raddr payload werr|t e']; simpl in *; rewrite Hin.
    + rewrite relay_once_socksClient. subst werr. simpl.
      split_and!; try done; simpl; lia.
    + injection Hfail as ->. split_and!; try done; simpl; lia.
  - intros ([Hlo Hhi] & -> & Hrest) Ht Hfail.
    assert (in_time now (now + timeout) t = true) as ->.
    { unfold in_time. apply andb_true_iff. split; apply Z.ltb_lt; lia. }
    rewrite relay_once_socksClient.
    rewrite last_arrival_cons in Ht. simpl in Ht.
    replace (now `max` t)%Z with t by lia.
    destruct (IH timeout t (go_copy buf payload) a rest e Hrest Ht Hfail)
      as (Heq & Hr & Hc & Hw).
    rewrite Heq.
    destruct (timedCopy socksClient timeout t _ (env ++ [a]))
      as [[tr r] c] eqn:Hrun.
    rewrite Heq in Hr, Hc, Hw. simpl in *. split_and!; try done.
    by rewrite Hw.
Qed.

Lemma first_error_ends_loop_example :
  let env := [Datagram 100 "198.51.100.7:53" [x61] None] in
  let a := Datagram 350 "198.51.100.7:53" [x62] (Some ErrOther) in
  let rest := [Datagram 360 "198.51.100.7:53" [x63] None] in
  @timedCopy Socks5.codec socksClient 300 0 (replicate udpBufSize x00)
    (env ++ a :: rest)
  = @timedCopy Socks5.codec socksClient 300 0 (replicate udpBufSize x00)
      (env ++ [a])
  ∧ (@timedCopy Socks5.codec socksClient 300 0 (replicate udpBufSize x00)
       (env ++ a :: rest)).1.2 = Returned ErrOther
  ∧ (@timedCopy Socks5.codec socksClient 300 0 (replicate udpBufSize x00)
       (env ++ a :: rest)).2 = arrival_time a
  ∧ length (writes (@timedCopy Socks5.codec socksClient 300 0
                      (replicate udpBufSize x00) (env ++ a :: rest)).1.1)
    = length env + 1.
Proof.
  intros env a rest.
  apply (@first_error_ends_loop Socks5.codec env 300%Z 0%Z
           (replicate udpBufSize x00) a rest ErrOther).
  - simpl. repeat split; lia.
  - vm_compute. split; [discriminate|reflexivity].
  - reflexivity.
Defined.

(** ** The passes and the goroutines of [udpSocksLocal] *)

(** X8.  One pass of [udpSocksLocal], panic or not, closes no socket,
    starts at most one goroutine, writes at most one datagram, and leaves
    every entry of the table in place. *)
Theorem udpSocksLocal_pass_keeps_sessions (st : socks_state) (buf : bytes)
    (inp : socks_input) :
  let st' := outcome_state (udpSocksLocal_pass st buf inp).2 in
  ss_closed st' = ss_closed st
  ∧ (ss_spawned st' = ss_spawned st
     ∨ ∃ g, ss_spawned st' = ss_spawned st ++ [g])
  ∧ (ss_sent st' = ss_sent st ∨ ∃ d, ss_sent st' = d :: ss_sent st)
  ∧ ∀ k pc, natmap_Get k (ss_nm st) = Some pc →
            natmap_Get k (ss_nm st') = Some pc.
Proof.
  cbv zeta. unfold udpSocksLocal_pass.
  destruct (in_read inp) as [e|[raddr payload]]; [simpl; by auto|].
  destruct (read_into buf payload) as [b n].
  assert (∀ s pc,
            ss_closed (outcome_state (socks_forward s b n pc inp))
            = ss_closed s
            ∧ ss_spawned (outcome_state (socks_forward s b n pc inp))
              = ss_spawned s
            ∧ (ss_sent (outcome_state (socks_forward s b n pc inp))
               = ss_sent s
               ∨ ∃ d, ss_sent (outcome_state (socks_forward s b n pc inp))
                      = d :: ss_sent s)
            ∧ ss_nm (outcome_state (socks_forward s b n pc inp)) = ss_nm s)
    as Hfwd.
  { intros s pc. unfold socks_forward.
    destruct (slice b 3 n); [destruct (in_write_ok inp)|]; simpl; eauto 10. }
  destruct (natmap_Get raddr (ss_nm st)) as [pc|] eqn:Hget.
  { cbn [snd]. destruct (Hfwd st pc) as (Hc & Hs & Hsent & Hnm).
    rewrite Hc, Hs, Hnm. auto. }
  unfold socks_create.
  destruct (in_listen_ok inp); [|simpl; by auto].
  destruct (slice b 3 (length b)); [|simpl; by auto].
  cbn [snd natmap_Add fst].
  match goal with
  | |- context [socks_forward ?s b n ?pc inp] =>
    destruct (Hfwd s pc) as (Hc & Hs & Hsent & Hnm)
  end.
  rewrite Hc, Hs, Hnm. simpl in *. split_and!; eauto.
  intros k pc Hk. unfold natmap_Get in *. simpl.
  rewrite lookup_insert_ne; [done|]. intros <-. congruence.
Qed.

(** X9.  A datagram of at least three bytes that fits the buffer, from a
    peer that has a session or for which a socket can be opened, and
    whose write succeeds: the pass does not panic, and it writes the
    datagram without its first three bytes to the socket the table then
    holds for the peer. *)
Theorem udpSocksLocal_forwards_body (st : socks_state) (buf : bytes)
    (inp : socks_input) (raddr : string) (payload : bytes) :
  length buf = udpBufSize →
  in_read inp = inr (raddr, payload) →
  3 ≤ length payload → length payload ≤ udpBufSize →
  in_write_ok inp = true →
  natmap_Get raddr (ss_nm st) ≠ None ∨ in_listen_ok inp = true →
  ∃ st' pc,
    (udpSocksLocal_pass st buf inp).2 = Continue st'
    ∧ natmap_Get raddr (ss_nm st') = Some pc
    ∧ ss_sent st' = (pc, drop 3 payload) :: ss_sent st.
Proof.
  intros Hbuf Hread Hlong Hfit Hwrite Hsession. unfold udpSocksLocal_pass.
  rewrite Hread.
  pose proof (read_into_spec buf payload) as Hr.
  destruct (read_into buf payload) as [b n].
  destruct Hr as (Hn & Hlen & Htake).
  assert (n = length payload) as -> by lia.
  rewrite (take_ge payload) in Htake by lia.
  assert (slice b 3 (length payload) = Some (drop 3 payload)) as Hslice.
  { rewrite slice_from by lia. f_equal.
    rewrite take_drop_commute.
    replace (3 + (length payload - 3)) with (length payload) by lia.
    by rewrite Htake. }
  assert (3 ≤ length b) as Hroom by lia.
  destruct (natmap_Get raddr (ss_nm st)) as [pc|] eqn:Hget.
  - simpl. unfold socks_forward. rewrite Hslice, Hwrite. simpl. eauto.
  - destruct Hsession as [|Hok]; [done|].
    unfold socks_create. rewrite Hok, slice_from by lia. simpl.
    unfold socks_forward. rewrite Hslice, Hwrite. simpl.
    eexists _, _. split_and!; [done| |done].
    unfold natmap_Get. simpl. by rewrite lookup_insert_eq.
Qed.

Lemma udpSocksLocal_forwards_body_example :
  let st := {| ss_nm := newNATmap 300; ss_spawned := []; ss_sent := [];
               ss_closed := [] |} in
  let inp := {| in_read := inr ("192.0.2.9:40000",
                                [x00; x00; x00; x01; x7f]);
                in_listen_ok := true; in_write_ok := true |} in
  ∃ st' pc,
    (udpSocksLocal_pass st (replicate udpBufSize x00) inp).2 = Continue st'
    ∧ natmap_Get "192.0.2.9:40000" (ss_nm st') = Some pc
    ∧ ss_sent st' = (pc, drop 3 [x00; x00; x00; x01; x7f]) :: ss_sent st.
Proof.
  intros st inp.
  apply (udpSocksLocal_forwards_body st (replicate udpBufSize x00) inp
           "192.0.2.9:40000" [x00; x00; x00; x01; x7f]).
  - apply length_replicate.
  - reflexivity.
  - simpl. lia.
  - unfold udpBufSize. simpl length. lia.
  - reflexivity.
  - right. reflexivity.
Defined.

Section SocksFurther.
Import SocksRelay.

(** Forwarding a datagram leaves the table, the goroutines and the closed
    sockets as they are. *)
Lemma socks_forward_frame (s : socks_state) (b : bytes) (n : nat)
    (pc : socket) (inp : socks_input) :
  ∃ st' c,
    settle b (socks_forward s b n pc inp)
    = {| st := st'; buf := b; lis := LRead; crashed := c |}
    ∧ ss_nm st' = ss_nm s ∧ ss_spawned st' = ss_spawned s
    ∧ ss_closed st' = ss_closed s.
Proof.
  unfold socks_forward.
  destruct (slice b 3 n); [destruct (in_write_ok inp)|]; simpl; eauto 10.
Qed.

(** The sockets closed so far are the sockets of goroutines at their end,
    each once, and a goroutine about to close holds its own socket. *)
Record closed_inv (s : state) : Prop := {
  cinv_nodup : NoDup (ss_closed (st s));
  cinv_done : ∀ x, x ∈ ss_closed (st s) →
    ∃ c g, x = Forwarding c ∧ ss_spawned (st s) !! c = Some g
           ∧ g_at g = RDone;
  cinv_own : ∀ c g pc, ss_spawned (st s) !! c = Some g →
    g_at g = RClose pc → pc = Some (Forwarding c)
}.

Lemma closed_inv_alter (l : list goroutine) (cl : list socket) (c : nat)
    (g : goroutine) (r : rpc) :
  l !! c = Some g → g_at g ≠ RDone →
  (∀ x, x ∈ cl → ∃ c' g', x = Forwarding c' ∧ l !! c' = Some g'
                          ∧ g_at g' = RDone) →
  ∀ x, x ∈ cl →
    ∃ c' g', x = Forwarding c'
             ∧ alter (λ g, {| g_args := g_args g; g_at := r |}) c l !! c'
               = Some g'
             ∧ g_at g' = RDone.
Proof.
  intros Hc Hat Hdone x Hx.
  destruct (Hdone x Hx) as (c' & g' & -> & Hc' & Hat').
  exists c', g'. split_and!; [done| |done].
  rewrite list_lookup_alter_ne; [done|]. intros <-. congruence.
Qed.

Lemma closed_inv_step a s s' :
  socks_inv s → closed_inv s → step a s = Some s' → closed_inv s'.
Proof.
  intros Hinv [Hnd Hdone Hown] Hstep. unfold step in Hstep.
  destruct (crashed s); [done|].
  destruct a as [inp| |c|c|c].
  - unfold step_get in Hstep.
    destruct (lis s) eqn:Hlis; [|done].
    destruct (in_read inp) as [e|[raddr payload]].
    { injection Hstep as <-. by split. }
    destruct (read_into (buf s) payload) as [b n].
    destruct (natmap_Get raddr (ss_nm (st s))) as [pc|];
      injection Hstep as <-; [|by split].
    destruct (socks_forward_frame (st s) b n pc inp)
      as (st' & c & -> & Hnm & Hsp & Hcl).
    split; simpl; rewrite ?Hsp, ?Hcl; done.
  - unfold step_add in Hstep.
    destruct (lis s) as [|raddr n inp] eqn:Hlis; [done|].
    unfold socks_create in Hstep.
    destruct (in_listen_ok inp); [|injection Hstep as <-; by split].
    destruct (slice (buf s) 3 (length (buf s)));
      [|injection Hstep as <-; by split].
    simpl in Hstep.
    match type of Hstep with
    | Some (settle _ (socks_forward ?x _ _ ?pc _)) = _ =>
      destruct (socks_forward_frame x (buf s) n pc inp)
        as (st' & c & Hset & Hnm & Hsp & Hcl)
    end.
    rewrite Hset in Hstep. injection Hstep as <-.
    split; simpl; rewrite ?Hsp, ?Hcl; simpl; [done| |].
    + intros x Hx. destruct (Hdone x Hx) as (c' & g' & -> & Hc' & Hat').
      exists c', g'. split_and!; [done| |done]. by apply lookup_app_l_Some.
    + intros c' g pc Hc' Hat.
      apply lookup_app_Some in Hc' as [Hc'|[Hlen Hc']]; [by eapply Hown|].
      destruct (c' - length (ss_spawned (st s))); simplify_eq/=.
  - unfold step_reaper in Hstep.
    destruct (ss_spawned (st s) !! c) as [g|] eqn:Hc; [|done].
    simpl in Hstep. destruct (g_at g) eqn:Hat; simplify_eq/=.
    split; simpl; [done| |].
    + eapply closed_inv_alter; [done| |done]. by rewrite Hat.
    + intros c' g' pc Hc'. rewrite list_lookup_alter in Hc'.
      case_decide; subst.
      * rewrite Hc in Hc'. by simplify_eq/=.
      * by apply Hown.
  - destruct (ss_spawned (st s) !! c) as [g|] eqn:Hc; [|done].
    simpl in Hstep.
    destruct (natmap_Del _ _) as [pc nm'] eqn:Hdel.
    unfold step_reaper in Hstep. rewrite Hc in Hstep. simpl in Hstep.
    destruct (g_at g) eqn:Hat; simplify_eq/=.
    pose proof (sinv_gor s Hinv c g Hc) as Hentry. unfold gor_ok in Hentry.
    rewrite Hat in Hentry. specialize (Hentry eq_refl).
    unfold natmap_Del in Hdel. rewrite Hentry in Hdel. simplify_eq/=.
    split; simpl; [done| |].
    + eapply closed_inv_alter; [done| |done]. by rewrite Hat.
    + intros c' g' pc Hc'. rewrite list_lookup_alter in Hc'.
      case_decide; subst.
      * rewrite Hc in Hc'. simplify_eq/=. by intros [= <-].
      * by apply Hown.
  - unfold step_reaper in Hstep.
    destruct (ss_spawned (st s) !! c) as [g|] eqn:Hc; [|done].
    simpl in Hstep.
    assert (∀ c' g' pc,
              alter (λ g, {| g_args := g_args g; g_at := RDone |}) c
                    (ss_spawned (st s)) !! c' = Some g' →
              g_at g' = RClose pc → pc = Some (Forwarding c')) as Hown'.
    { intros c' g' pc Hc'. rewrite list_lookup_alter in Hc'.
      case_decide; subst.
      - rewrite Hc in Hc'. by simplify_eq/=.
      - by apply Hown. }
    destruct (g_at g) as [| |[x|]|] eqn:Hat; simplify_eq/=.
    + pose proof (Hown c g _ Hc Hat) as [= ->].
      split; simpl; [| |done].
      * apply NoDup_cons. split; [|done]. intros Hin.
        destruct (Hdone _ Hin) as (c' & g' & [= <-] & Hc' & Hat').
        congruence.
      * intros x [->|Hx]%elem_of_cons.
        -- eexists c, _.
           split_and!; [done|by rewrite list_lookup_alter_eq, Hc|done].
        -- eapply closed_inv_alter; [done| |done|done]. by rewrite Hat.
    + split; simpl; [done| |done].
      eapply closed_inv_alter; [done| |done]. by rewrite Hat.
Qed.

Lemma closed_inv_run tr : ∀ s s',
  socks_inv s → closed_inv s → run tr s = Some s' → closed_inv s'.
Proof.
  induction tr as [|a tr IH]; intros s s' Hinv Hcl Hrun; simplify_eq/=;
    [done|].
  destruct (step a s) as [s1|] eqn:Hstep; simplify_eq/=.
  eapply IH; [by eapply socks_inv_step|by eapply closed_inv_step|done].
Qed.

Lemma socks_teardown_reachable : reachable 300 socks_teardown_state.
Proof. exists socks_teardown. reflexivity. Qed.

(** X10.  In every reachable state of [udpSocksLocal] no socket has been
    closed twice; a closed socket is the forwarding socket of a goroutine
    that has ended, and no entry of the table; and what [m.Del] has
    handed to a goroutine to close is that goroutine's own socket. *)
Theorem socks_socket_closed_once (timeout : Z) (s : state) :
  reachable timeout s →
  NoDup (ss_closed (st s))
  ∧ (∀ x, x ∈ ss_closed (st s) →
       (∃ c g, x = Forwarding c ∧ ss_spawned (st s) !! c = Some g
               ∧ g_at g = RDone)
       ∧ ∀ k, natmap_Get k (ss_nm (st s)) ≠ Some x)
  ∧ (∀ c g pc, ss_spawned (st s) !! c = Some g → g_at g = RClose pc →
               pc = Some (Forwarding c)).
Proof.
  intros Hreach.
  pose proof (socks_inv_reachable timeout s Hreach) as Hinv.
  destruct Hreach as [tr Hrun].
  assert (closed_inv (init timeout)) as Hinit.
  { split; simpl; [apply NoDup_nil_2|by intros x ?%elem_of_nil|done]. }
  destruct (closed_inv_run tr _ s (socks_inv_init timeout) Hinit Hrun)
    as [Hnd Hdone Hown].
  split_and!; [done| |done].
  intros x Hx. split; [by apply Hdone|].
  intros k Hk. unfold natmap_Get in Hk.
  destruct (nm_m (ss_nm (st s)) !! k) as [pc|] eqn:Hm; [|done].
  simpl in Hk. subst pc.
  destruct (sinv_entry s Hinv k _ Hm) as (c & g & [= ->] & Hc & _ & Hp).
  destruct (Hdone _ Hx) as (c' & g' & [= <-] & Hc' & Hat').
  simplify_eq. by rewrite Hat' in Hp.
Qed.

Lemma socks_socket_closed_once_example :
  NoDup (ss_closed (st socks_teardown_state))
  ∧ (∀ x, x ∈ ss_closed (st socks_teardown_state) →
       (∃ c g, x = Forwarding c
               ∧ ss_spawned (st socks_teardown_state) !! c = Some g
               ∧ g_at g = RDone)
       ∧ ∀ k, natmap_Get k (ss_nm (st socks_teardown_state)) ≠ Some x)
  ∧ (∀ c g pc, ss_spawned (st socks_teardown_state) !! c = Some g →
               g_at g = RClose pc → pc = Some (Forwarding c)).
Proof.
  apply (socks_socket_closed_once 300 socks_teardown_state).
  apply socks_teardown_reachable.
Defined.

(** What keeps the listener of [udpSocksLocal] from a panic: a buffer of
    [udpBufSize] bytes, and a count of at least three bytes read. *)
Record quiet (s : state) : Prop := {
  quiet_run : crashed s = false;
  quiet_buf : length (buf s) = udpBufSize;
  quiet_count : ∀ raddr n inp, lis s = LCreate raddr n inp →
                               3 ≤ n ∧ n ≤ udpBufSize
}.

Lemma socks_forward_long (s : socks_state) (b : bytes) (n : nat)
    (pc : socket) (inp : socks_input) :
  3 ≤ n → n ≤ length b →
  ∃ st', socks_forward s b n pc inp = Continue st'.
Proof.
  intros Hlo Hhi. unfold socks_forward. rewrite slice_from by done.
  destruct (in_write_ok inp); eauto.
Qed.

Lemma quiet_step a s s' :
  long_enough a → quiet s → step a s = Some s' → quiet s'.
Proof.
  intros Hlong [Hrun Hbuf Hcount] Hstep. unfold step in Hstep.
  rewrite Hrun in Hstep.
  destruct a as [inp| |c|c|c].
  - unfold step_get in Hstep. simpl in Hlong.
    destruct (lis s) eqn:Hlis; [|done].
    destruct (in_read inp) as [e|[raddr payload]].
    { injection Hstep as <-. split; [done|done|]. by rewrite Hlis. }
    unfold read_into in Hstep.
    assert (3 ≤ length payload `min` length (buf s)
            ∧ length payload `min` length (buf s) ≤ udpBufSize) as [Hlo Hhi].
    { rewrite Hbuf. unfold udpBufSize in *. lia. }
    destruct (natmap_Get raddr (ss_nm (st s))) as [pc|];
      injection Hstep as <-.
    + destruct (socks_forward_long (st s) (go_copy (buf s) payload)
                  (length payload `min` length (buf s)) pc inp)
        as [st' ->]; [done|rewrite length_go_copy; lia|].
      split; simpl; [done|by rewrite length_go_copy|done].
    + split; simpl; [done|by rewrite length_go_copy|].
      by intros ? ? ? [= <- <- <-].
  - unfold step_add in Hstep.
    destruct (lis s) as [|raddr n inp] eqn:Hlis; [done|].
    destruct (Hcount raddr n inp eq_refl) as [Hlo Hhi].
    unfold socks_create in Hstep.
    destruct (in_listen_ok inp); [|injection Hstep as <-; by split].
    rewrite slice_from in Hstep by (rewrite ?Hbuf; unfold udpBufSize; lia).
    simpl in Hstep.
    match type of Hstep with
    | Some (settle _ (socks_forward ?x _ _ ?pc _)) = _ =>
      destruct (socks_forward_long x (buf s) n pc inp) as [st' Hfwd];
        [done|lia|]
    end.
    rewrite Hfwd in Hstep. injection Hstep as <-. by split.
  - unfold step_reaper in Hstep.
    destruct (ss_spawned (st s) !! c) as [g|]; [|done]. simpl in Hstep.
    destruct (g_at g); simplify_eq/=. by split.
  - destruct (ss_spawned (st s) !! c) as [g|] eqn:Hc; [|done].
    simpl in Hstep. destruct (natmap_Del _ _) as [pc nm'].
    unfold step_reaper in Hstep. rewrite Hc in Hstep. simpl in Hstep.
    destruct (g_at g); simplify_eq/=. by split.
  - unfold step_reaper in Hstep.
    destruct (ss_spawned (st s) !! c) as [g|]; [|done]. simpl in Hstep.
    destruct (g_at g) as [| |[x|]|]; simplify_eq/=; by split.
Qed.

(** X11.  [udpSocksLocal] panics on short datagrams only: a run in which
    every datagram read has at least three bytes ends in no panic, with
    the buffer at its [udpBufSize] bytes. *)
Theorem udpSocksLocal_panics_only_on_short (timeout : Z) (tr : list action)
    (s : state) :
  Forall long_enough tr → run tr (init timeout) = Some s →
  crashed s = false ∧ length (buf s) = udpBufSize.
Proof.
  intros Hlong Hrun.
  assert (quiet (init timeout)) as Hinit.
  { split; [done|apply length_replicate|done]. }
  revert Hrun Hinit. generalize (init timeout).
  induction Hlong as [|a tr Ha Htr IH]; intros s0 Hrun H0; simplify_eq/=.
  { by destruct H0. }
  destruct (step a s0) as [s1|] eqn:Hstep; simplify_eq/=.
  eapply IH; [done|]. by eapply quiet_step.
Qed.

Lemma udpSocksLocal_panics_only_on_short_example :
  crashed socks_teardown_state = false
  ∧ length (buf socks_teardown_state) = udpBufSize.
Proof.
  apply (udpSocksLocal_panics_only_on_short 300 socks_teardown
           socks_teardown_state).
  - unfold socks_teardown. repeat constructor.
  - reflexivity.
Defined.

End SocksFurther.

(** ** From [udpLocal] to [udpRemote] *)

(** X12.  What [udpLocal] frames, [udpRemote] unframes.  Let the codec
    split off what it parses, and let the target prefix fit the buffer.
    The slice the listener of [udpLocal] hands on after a read is the
    prefix followed by the payload, cut off at the end of the buffer; it
    has at most [udpBufSize] bytes, so one read of [udpRemote] takes it
    whole; and the drain loop of [udpRemote] writes that payload. *)
Theorem udpLocal_frames_udpRemote_unframes `{AddrCodec} (target k : string)
    (tgt payload : bytes) (s s' : Relay.state) :
  (∀ a p rest, ParseAddr a = Some p → SplitAddr (p ++ rest) = Some p) →
  ParseAddr target = Some tgt →
  length tgt ≤ udpBufSize →
  Relay.step tgt (Relay.ARead k payload true) s = Some s' →
  ∃ b data,
    Relay.lis s'
    = Relay.LAcquire k {| Relay.pk_buf := b; Relay.pk_data := data |}
    ∧ length data ≤ udpBufSize
    ∧ drain_turn data true
      = Some (Write (take (udpBufSize - length tgt) payload)).
Proof.
  intros Hlaw Htgt Hfit Hstep. unfold Relay.step in Hstep.
  destruct (Relay.crashed s); [done|]. unfold Relay.step_read in Hstep.
  destruct (Relay.lis s); try done.
  destruct (Relay.get s) as [b s1].
  destruct (Nat.ltb_spec udpBufSize (length tgt)); [lia|].
  injection Hstep as <-.
  eexists b, _. split; [reflexivity|]. split.
  - rewrite length_app, length_take. lia.
  - unfold drain_turn. rewrite (Hlaw target tgt _ Htgt).
    rewrite slice_from by (rewrite ?length_app; lia). do 2 f_equal.
    rewrite drop_app_length. apply take_ge. rewrite length_app. lia.
Qed.

Lemma udpLocal_frames_udpRemote_unframes_example :
  ∃ b data,
    Relay.lis relay_framed_state
    = Relay.LAcquire "198.51.100.2:5000"
        {| Relay.pk_buf := b; Relay.pk_data := data |}
    ∧ length data ≤ udpBufSize
    ∧ @drain_turn Socks5.codec data true
      = Some (Write (take (udpBufSize
                           - length [x01; xcb; x00; x71; x05; x23; x28])
                          [x61; x62])).
Proof.
  apply (@udpLocal_frames_udpRemote_unframes Socks5.codec
           "203.0.113.5:9000" "198.51.100.2:5000"
           [x01; xcb; x00; x71; x05; x23; x28] [x61; x62]
           Relay.init relay_framed_state).
  - intros a p rest. apply Socks5_split_parse.
  - vm_compute. reflexivity.
  - unfold udpBufSize. simpl length. lia.
  - vm_compute. reflexivity.
Defined.

(** ** Teardown, mutex and buffers in [udpLocal] and [udpRemote] *)

Section RelayFurther.
Import Relay.

Lemma relay_teardown_reachable : reachable [] relay_teardown_state.
Proof. exists relay_teardown. vm_compute. reflexivity. Qed.


(** What [step_remove] does in a state that satisfies the invariant. *)
Lemma relay_remove_spec tgt s i s' :
  relay_inv s → step tgt (ARemove i) s = Some s' →
  ∃ x, sessions s !! i = Some x
       ∧ s_ret x = RCritical
       ∧ s_closed x = false
       ∧ tbl s !! s_key x = Some i
       ∧ s' = upd i close_chan
                (upd i (set_ret RRelease)
                   (set_tbl (delete (s_key x) (tbl s)) s)).
Proof.
  intros Hinv Hstep. unfold step in Hstep.
  destruct (crashed s); [done|]. unfold step_remove in Hstep.
  destruct (sessions s !! i) as [x|] eqn:Hi; simplify_eq/=.
  destruct (s_ret x) eqn:Hret; simplify_eq/=.
  destruct (inv_sess s Hinv i x Hi) as (Ht & _ & _ & Hcl & _).
  rewrite Hret in Ht, Hcl. specialize (Ht eq_refl).
  assert (s_closed x = false) as Hopen.
  { destruct (s_closed x); [|done]. by specialize (Hcl eq_refl). }
  rewrite Ht, Hi, Hopen in Hstep. simplify_eq. eauto 10.
Qed.

(** X13.  The teardown of a session in [udpLocal] and [udpRemote] never
    closes a closed channel: in a reachable state the step of lines 92-95
    does not panic, the entry of the peer is the session's own channel,
    that channel is open and is closed now, the entry is deleted, and no
    other session changes. *)
Theorem teardown_closes_own_channel_once (tgt : bytes) (s s' : state)
    (i : nat) :
  reachable tgt s → step tgt (ARemove i) s = Some s' →
  crashed s' = false
  ∧ ∃ x, sessions s !! i = Some x
         ∧ s_closed x = false
         ∧ tbl s !! s_key x = Some i
         ∧ tbl s' = delete (s_key x) (tbl s)
         ∧ sessions s' !! i = Some (close_chan (set_ret RRelease x))
         ∧ ∀ j, j ≠ i → sessions s' !! j = sessions s !! j.
Proof.
  intros Hreach%relay_inv_reachable Hstep.
  assert (crashed s = false) as Hrun.
  { unfold step in Hstep. by destruct (crashed s). }
  destruct (relay_remove_spec tgt s i s' Hreach Hstep)
    as (x & Hi & Hret & Hopen & Ht & ->).
  split; [done|]. exists x. simpl. split_and!; try done.
  - rewrite list_alter_alter_eq, list_lookup_alter_eq, Hi. done.
  - intros j Hne. by rewrite !list_lookup_alter_ne.
Qed.

Lemma teardown_closes_own_channel_once_example :
  let s' := upd 0 close_chan
              (upd 0 (set_ret RRelease)
                 (set_tbl ∅ relay_teardown_state)) in
  crashed s' = false
  ∧ ∃ x, sessions relay_teardown_state !! 0 = Some x
         ∧ s_closed x = false
         ∧ tbl relay_teardown_state !! s_key x = Some 0
         ∧ tbl s' = delete (s_key x) (tbl relay_teardown_state)
         ∧ sessions s' !! 0 = Some (close_chan (set_ret RRelease x))
         ∧ ∀ j, j ≠ 0 → sessions s' !! j = sessions relay_teardown_state !! j.
Proof.
  intros s'.
  apply (teardown_closes_own_channel_once [] relay_teardown_state s' 0).
  - apply relay_teardown_reachable.
  - vm_compute. reflexivity.
Defined.

(** X14.  After a failed [net.ListenPacket] the datagram is dropped: the
    listener jumps to [Unlock], releases the mutex, the [select] on the
    nil channel takes [default], and the buffer goes back to the pool;
    the table and the sessions are as before. *)
Theorem failed_socket_drops_datagram (tgt : bytes) (s : state) (k : string)
    (p : packet) :
  crashed s = false → lis s = LCreate k p →
  ∃ s', run tgt [ACreate false; AUnlock Listener; ASelect] s = Some s'
        ∧ tbl s' = tbl s ∧ sessions s' = sessions s
        ∧ pool s' = pk_buf p :: pool s
        ∧ lis s' = LRead ∧ lock s' = None ∧ crashed s' = false.
Proof.
  intros Hrun Hlis. unfold run, step, step_create.
  rewrite Hrun, Hlis. simpl. rewrite Hrun. simpl. rewrite Hrun. simpl.
  eauto 10.
Qed.

Lemma failed_socket_drops_datagram_example :
  ∃ s', run [] [ACreate false; AUnlock Listener; ASelect] relay_absent_state
        = Some s'
        ∧ tbl s' = tbl relay_absent_state
        ∧ sessions s' = sessions relay_absent_state
        ∧ pool s' = pk_buf {| pk_buf := 0; pk_data := [x01] |}
                    :: pool relay_absent_state
        ∧ lis s' = LRead ∧ lock s' = None ∧ crashed s' = false.
Proof.
  apply (failed_socket_drops_datagram [] relay_absent_state
           "198.51.100.2:5000" {| pk_buf := 0; pk_data := [x01] |}).
  - reflexivity.
  - reflexivity.
Defined.

(** X15.  The mutex of [udpLocal] and [udpRemote] has one holder: while
    the listener is between [lock.Lock()] and [lock.Unlock()] no
    goroutine of a session is; two sessions whose goroutines are there
    are the same session; and with the mutex free nobody is. *)
Theorem mutex_has_one_holder (tgt : bytes) (s : state) :
  reachable tgt s →
  (lis_holds (lis s) = true →
   lock s = Some Listener
   ∧ ∀ i x, sessions s !! i = Some x → ret_holds (s_ret x) = false)
  ∧ (∀ i j x y,
       sessions s !! i = Some x → sessions s !! j = Some y →
       ret_holds (s_ret x) = true → ret_holds (s_ret y) = true →
       i = j ∧ lock s = Some (Return i))
  ∧ (lock s = None →
     lis_holds (lis s) = false
     ∧ ∀ i x, sessions s !! i = Some x → ret_holds (s_ret x) = false).
Proof.
  intros Hreach%relay_inv_reachable.
  assert (∀ i x, sessions s !! i = Some x → ret_holds (s_ret x) = true →
                 lock s = Some (Return i)) as Hret.
  { intros i x Hi. by destruct (inv_sess s Hreach i x Hi) as (_ & Hr & _). }
  split_and!.
  - intros Hl. pose proof (inv_holds s Hreach Hl) as Hlock. split; [done|].
    intros i x Hi. destruct (ret_holds (s_ret x)) eqn:Hr; [|done].
    specialize (Hret i x Hi Hr). congruence.
  - intros i j x y Hi Hj Hx Hy.
    pose proof (Hret i x Hi Hx). pose proof (Hret j y Hj Hy).
    split; [congruence|done].
  - intros Hnone. split.
    + destruct (lis_holds (lis s)) eqn:Hl; [|done].
      pose proof (inv_holds s Hreach Hl). congruence.
    + intros i x Hi. destruct (ret_holds (s_ret x)) eqn:Hr; [|done].
      specialize (Hret i x Hi Hr). congruence.
Qed.

Lemma mutex_has_one_holder_example :
  (lis_holds (lis relay_teardown_state) = true →
   lock relay_teardown_state = Some Listener
   ∧ ∀ i x, sessions relay_teardown_state !! i = Some x →
            ret_holds (s_ret x) = false)
  ∧ (∀ i j x y,
       sessions relay_teardown_state !! i = Some x →
       sessions relay_teardown_state !! j = Some y →
       ret_holds (s_ret x) = true → ret_holds (s_ret y) = true →
       i = j ∧ lock relay_teardown_state = Some (Return i))
  ∧ (lock relay_teardown_state = None →
     lis_holds (lis relay_teardown_state) = false
     ∧ ∀ i x, sessions relay_teardown_state !! i = Some x →
              ret_holds (s_ret x) = false).
Proof.
  apply (mutex_has_one_holder [] relay_teardown_state).
  apply relay_teardown_reachable.
Defined.

(** How one step changes one session: the stages of its goroutine in
    their order, the socket closed on the way to the mutex, the channel
    closed with the removal of the entry. *)
Inductive sess_step : session → session → Prop :=
  | sess_same x : sess_step x x
  | sess_inbox x q : sess_step x (set_inbox q x)
  | sess_exit x : s_ret x = RCopy → sess_step x (set_ret RClose x)
  | sess_close x :
      s_ret x = RClose → sess_step x (set_ret RAcquire (close_sock x))
  | sess_lock x : s_ret x = RAcquire → sess_step x (set_ret RCritical x)
  | sess_remove x :
      s_ret x = RCritical → s_closed x = false →
      sess_step x (close_chan (set_ret RRelease x))
  | sess_unlock x : s_ret x = RRelease → sess_step x (set_ret RDone x).

Lemma alter_sess_step (l : list session) (j : nat) (f : session → session)
    (y : session) :
  l !! j = Some y → sess_step y (f y) →
  ∀ i x', alter f j l !! i = Some x' →
    ∃ x, l !! i = Some x ∧ sess_step x x'.
Proof.
  intros Hj Hf i x'. rewrite list_lookup_alter. case_decide as Hij.
  - subst i. rewrite Hj. intros [= <-]. eauto.
  - intros Hi. exists x'. split; [done|constructor].
Qed.

Lemma relay_step_sessions tgt a s s' :
  relay_inv s → step tgt a s = Some s' →
  ∀ i x', sessions s' !! i = Some x' →
    (∃ x, sessions s !! i = Some x ∧ sess_step x x')
    ∨ (sessions s !! i = None ∧ ∃ k, x' = new_session k).
Proof.
  intros Hinv Hstep.
  assert (sessions s' = sessions s →
          ∀ i x', sessions s' !! i = Some x' →
            (∃ x, sessions s !! i = Some x ∧ sess_step x x')
            ∨ (sessions s !! i = None ∧ ∃ k, x' = new_session k)) as Hsame.
  { intros -> i x' Hi. left. exists x'. split; [done|constructor]. }
  destruct a as [k payload ok|g| |ok|g| |i|i|i|i];
    try (destruct (relay_remove_spec tgt s i s' Hinv Hstep)
           as (x & Hi & Hret & Hopen & Ht & ->);
         intros j x' Hj; left; simpl in Hj;
         rewrite list_alter_alter_eq in Hj;
         eapply (alter_sess_step _ _ _ x); [done| |done];
         by apply sess_remove);
    unfold step in Hstep; (destruct (crashed s); [done|]).
  - unfold step_read, get in Hstep.
    destruct (lis s); try done.
    destruct (pool s), (udpBufSize <? length tgt), ok; simplify_eq/=;
      by apply Hsame.
  - unfold step_lock in Hstep. destruct (lock s); [done|].
    destruct g as [|i].
    + destruct (lis s); simplify_eq/=. by apply Hsame.
    + destruct (sessions s !! i) as [x|] eqn:Hi; simplify_eq/=.
      destruct (s_ret x) eqn:Hret; simplify_eq/=.
      intros j x' Hj. left.
      eapply (alter_sess_step _ _ _ x); [done| |done]. by constructor.
  - unfold step_lookup in Hstep.
    destruct (lis s); simplify_eq/=.
    destruct (tbl s !! k); simplify_eq/=; by apply Hsame.
  - unfold step_create in Hstep.
    destruct (lis s); simplify_eq/=.
    destruct ok; simplify_eq/=; [|by apply Hsame].
    intros i x' Hi. apply lookup_app_Some in Hi as [Hi|[Hlen Hi]].
    + left. exists x'. split; [done|constructor].
    + right. split; [by apply lookup_ge_None|].
      destruct (i - length (sessions s)); simplify_eq/=. eauto.
  - unfold step_unlock in Hstep. destruct g as [|i].
    + destruct (lis s); simplify_eq/=. by apply Hsame.
    + destruct (sessions s !! i) as [x|] eqn:Hi; simplify_eq/=.
      destruct (s_ret x) eqn:Hret; simplify_eq/=.
      intros j x' Hj. left.
      eapply (alter_sess_step _ _ _ x); [done| |done]. by constructor.
  - unfold step_select in Hstep.
    destruct (lis s) as [| | | | |[i|] p]; simplify_eq/=;
      [|by apply Hsame].
    destruct (sessions s !! i) as [x|] eqn:Hi; simplify_eq/=.
    destruct (s_closed x); simplify_eq/=; [by apply Hsame|].
    destruct (length (s_inbox x) <? 1); simplify_eq/=; [|by apply Hsame].
    intros j x' Hj. left.
    eapply (alter_sess_step _ _ _ x); [done| |done]. by constructor.
  - unfold step_drain in Hstep.
    destruct (sessions s !! i) as [x|] eqn:Hi; simplify_eq/=.
    destruct (s_inbox x); simplify_eq/=.
    intros j x' Hj. left.
    eapply (alter_sess_step _ _ _ x); [done| |done]. by constructor.
  - unfold step_exit in Hstep.
    destruct (sessions s !! i) as [x|] eqn:Hi; simplify_eq/=.
    destruct (s_ret x) eqn:Hret; simplify_eq/=.
    intros j x' Hj. left.
    eapply (alter_sess_step _ _ _ x); [done| |done]. by constructor.
  - unfold step_close in Hstep.
    destruct (sessions s !! i) as [x|] eqn:Hi; simplify_eq/=.
    destruct (s_ret x) eqn:Hret; simplify_eq/=.
    intros j x' Hj. left.
    eapply (alter_sess_step _ _ _ x); [done| |done]. by constructor.
Qed.

(** The flags of a session as its stage determines them. *)
Definition flags_ok (x : session) : Prop :=
  (s_open x = true ↔ s_ret x = RCopy ∨ s_ret x = RClose)
  ∧ (s_closed x = false ↔ in_table (s_ret x) = true).

Lemma flags_ok_step (x x' : session) :
  sess_step x x' → flags_ok x → flags_ok x'.
Proof.
  unfold flags_ok.
  destruct 1 as [x|x q|x Hr|x Hr|x Hr|x Hr Hc|x Hr]; simpl; try done;
    rewrite Hr; simpl; intuition (try congruence; try discriminate).
Qed.

Lemma flags_ok_run tgt tr : ∀ s s',
  relay_inv s → (∀ i x, sessions s !! i = Some x → flags_ok x) →
  run tgt tr s = Some s' →
  ∀ i x, sessions s' !! i = Some x → flags_ok x.
Proof.
  induction tr as [|a tr IH]; intros s s' Hinv Hflags Hrun;
    simplify_eq/=; [done|].
  destruct (step tgt a s) as [s1|] eqn:Hstep; simplify_eq/=.
  eapply (IH s1); [by eapply relay_inv_step| |done].
  intros i x' Hi.
  destruct (relay_step_sessions tgt a s s1 Hinv Hstep i x' Hi)
    as [(x & Hx & Hxx')|[_ [k ->]]].
  - eapply flags_ok_step; eauto.
  - unfold flags_ok. simpl. intuition.
Qed.

(** X16.  In every reachable state the socket of a session is open
    exactly while its goroutine is in the copy loop or before
    [pc.Close()], its channel is open exactly while its entry has not
    been deleted, and a session with an open socket has an open channel
    and is the entry of its peer. *)
Theorem session_flags_follow_stage (tgt : bytes) (s : state) (i : nat)
    (x : session) :
  reachable tgt s → sessions s !! i = Some x →
  (s_open x = true ↔ s_ret x = RCopy ∨ s_ret x = RClose)
  ∧ (s_closed x = false ↔ in_table (s_ret x) = true)
  ∧ (s_open x = true → s_closed x = false ∧ tbl s !! s_key x = Some i).
Proof.
  intros [tr Hrun] Hi.
  assert (relay_inv s) as Hinv
    by (apply (relay_inv_reachable tgt); by exists tr).
  destruct (flags_ok_run tgt tr init s relay_inv_init
              ltac:(by intros ? ? ?) Hrun i x Hi) as [Ho Hc].
  split_and!; [done|done|].
  intros Hop. apply Ho in Hop.
  assert (in_table (s_ret x) = true) as Hin by (by destruct Hop as [-> | ->]).
  split; [by apply (proj2 Hc)|].
  destruct (inv_sess s Hinv i x Hi) as (Ht & _). by apply Ht.
Qed.

Lemma session_flags_follow_stage_example :
  let x := {| s_key := "198.51.100.2:5000";
              s_inbox := [{| pk_buf := 0; pk_data := [x01] |}];
              s_closed := false; s_open := false; s_ret := RCritical |} in
  (s_open x = true ↔ s_ret x = RCopy ∨ s_ret x = RClose)
  ∧ (s_closed x = false ↔ in_table (s_ret x) = true)
  ∧ (s_open x = true →
     s_closed x = false ∧ tbl relay_teardown_state !! s_key x = Some 0).
Proof.
  intros x.
  apply (session_flags_follow_stage [] relay_teardown_state 0 x).
  - apply relay_teardown_reachable.
  - reflexivity.
Defined.



Lemma inbox_bufs_cons (y : session) (l : list session) :
  inbox_bufs (y :: l) = (pk_buf <$> s_inbox y) ++ inbox_bufs l.
Proof. done. Qed.

Lemma inbox_bufs_alter (l : list session) (i : nat) (x : session)
    (f : session → session) :
  l !! i = Some x →
  ∃ rest, inbox_bufs l ≡ₚ (pk_buf <$> s_inbox x) ++ rest
          ∧ inbox_bufs (alter f i l) ≡ₚ (pk_buf <$> s_inbox (f x)) ++ rest.
Proof.
  revert i. induction l as [|y l IH]; intros i Hi; [done|].
  destruct i as [|i]; simpl in Hi.
  - injection Hi as ->. exists (inbox_bufs l).
    change (alter f 0 (x :: l)) with (f x :: l).
    by rewrite !inbox_bufs_cons.
  - destruct (IH i Hi) as (rest & H1 & H2).
    exists ((pk_buf <$> s_inbox y) ++ rest).
    change (alter f (S i) (y :: l)) with (y :: alter f i l).
    rewrite !inbox_bufs_cons, H1, H2. split; solve_Permutation.
Qed.

Lemma inbox_bufs_alter_same (l : list session) (i : nat)
    (f : session → session) :
  (∀ x, s_inbox (f x) = s_inbox x) →
  inbox_bufs (alter f i l) = inbox_bufs l.
Proof.
  intros Hf. revert i. induction l as [|y l IH]; intros i; [done|].
  destruct i as [|i].
  - change (alter f 0 (y :: l)) with (f y :: l).
    by rewrite !inbox_bufs_cons, Hf.
  - change (alter f (S i) (y :: l)) with (y :: alter f i l).
    by rewrite !inbox_bufs_cons, IH.
Qed.

(** One step hands out at most one new buffer, and every buffer it leaves
    in the pool, with the listener or in a channel was there before or is
    that new one. *)
Lemma relay_step_buffers tgt a s s' :
  step tgt a s = Some s' →
  (fresh s' = fresh s ∧ buffers s' ⊆+ buffers s)
  ∨ (fresh s' = S (fresh s) ∧ buffers s' ⊆+ fresh s :: buffers s).
Proof.
  intros Hstep. unfold step in Hstep. destruct (crashed s); [done|].
  unfold buffers.
  destruct a as [k payload ok|g| |ok|g| |i|i|i|i].
  - unfold step_read, get in Hstep.
    destruct (lis s) eqn:Hlis; try done.
    destruct (pool s) as [|b rest] eqn:Hpool; [right|left];
      destruct (udpBufSize <? length tgt), ok; simplify_eq/=;
      (split; [done|]); solve_submseteq.
  - unfold step_lock in Hstep. destruct (lock s); [done|].
    destruct g as [|i].
    + destruct (lis s) eqn:Hlis; simplify_eq/=. by left.
    + destruct (sessions s !! i) as [x|] eqn:Hi; simplify_eq/=.
      destruct (s_ret x); simplify_eq/=. left.
      by rewrite inbox_bufs_alter_same.
  - unfold step_lookup in Hstep.
    destruct (lis s) eqn:Hlis; simplify_eq/=.
    destruct (tbl s !! k); simplify_eq/=; by left.
  - unfold step_create in Hstep.
    destruct (lis s) eqn:Hlis; simplify_eq/=.
    destruct ok; simplify_eq/=; left; [|done].
    split; [done|]. unfold inbox_bufs. rewrite bind_app. simpl.
    by rewrite !app_nil_r.
  - unfold step_unlock in Hstep. destruct g as [|i].
    + destruct (lis s) eqn:Hlis; simplify_eq/=. by left.
    + destruct (sessions s !! i) as [x|] eqn:Hi; simplify_eq/=.
      destruct (s_ret x); simplify_eq/=. left.
      by rewrite inbox_bufs_alter_same.
  - unfold step_select in Hstep.
    destruct (lis s) as [| | | | |[i|] p] eqn:Hlis; simplify_eq/=.
    + destruct (sessions s !! i) as [x|] eqn:Hi; simplify_eq/=.
      destruct (s_closed x); simplify_eq/=;
        [left; split; [done|]; simpl; by rewrite Hlis|].
      destruct (length (s_inbox x) <? 1); simplify_eq/=; left;
        (split; [done|]); simpl.
      * destruct (inbox_bufs_alter (sessions s) i x
                    (set_inbox (s_inbox x ++ [p])) Hi) as (rest & H1 & H2).
        rewrite H1, H2. simpl. rewrite fmap_app. simpl.
        apply Permutation_submseteq. solve_Permutation.
      * apply Permutation_submseteq. solve_Permutation.
    + left. split; [done|]. simpl.
      apply Permutation_submseteq. solve_Permutation.
  - unfold step_drain in Hstep.
    destruct (sessions s !! i) as [x|] eqn:Hi; simplify_eq/=.
    destruct (s_inbox x) as [|p q] eqn:Hq; simplify_eq/=. left.
    split; [done|].
    destruct (inbox_bufs_alter (sessions s) i x (set_inbox q) Hi)
      as (rest & H1 & H2).
    rewrite H1, H2, Hq. simpl.
    apply Permutation_submseteq. solve_Permutation.
  - unfold step_exit in Hstep.
    destruct (sessions s !! i) as [x|] eqn:Hi; simplify_eq/=.
    destruct (s_ret x); simplify_eq/=. left.
    by rewrite inbox_bufs_alter_same.
  - unfold step_close in Hstep.
    destruct (sessions s !! i) as [x|] eqn:Hi; simplify_eq/=.
    destruct (s_ret x); simplify_eq/=. left.
    by rewrite inbox_bufs_alter_same.
  - unfold step_remove in Hstep.
    destruct (sessions s !! i) as [x|] eqn:Hi; simplify_eq/=.
    destruct (s_ret x); simplify_eq/=. left.
    destruct (tbl s !! s_key x) as [j|]; simplify_eq/=;
      [|by rewrite inbox_bufs_alter_same].
    destruct (sessions s !! j) as [y|]; simplify_eq/=;
      [|by rewrite inbox_bufs_alter_same].
    destruct (s_closed y); simplify_eq/=;
      by rewrite ?inbox_bufs_alter_same.
Qed.

Definition buffers_ok (s : state) : Prop :=
  NoDup (buffers s) ∧ Forall (λ b, b < fresh s) (buffers s).

Lemma sub_NoDup {A} (l k : list A) : l ⊆+ k → NoDup k → NoDup l.
Proof.
  intros [k' Hk]%submseteq_Permutation Hnd. rewrite Hk in Hnd.
  by apply NoDup_app in Hnd as [? _].
Qed.

Lemma sub_elem_of {A} (l k : list A) (x : A) : l ⊆+ k → x ∈ l → x ∈ k.
Proof.
  intros [k' Hk]%submseteq_Permutation Hx. rewrite Hk.
  apply elem_of_app. by left.
Qed.

Lemma buffers_ok_step tgt a s s' :
  buffers_ok s → step tgt a s = Some s' → buffers_ok s'.
Proof.
  intros [Hnd Hlt] Hstep. rewrite Forall_forall in Hlt.
  destruct (relay_step_buffers tgt a s s' Hstep) as [[Hf Hsub]|[Hf Hsub]];
    unfold buffers_ok; rewrite Hf, Forall_forall.
  - split; [by eapply sub_NoDup|].
    intros b Hb. apply Hlt. by eapply sub_elem_of.
  - assert (NoDup (fresh s :: buffers s)) as Hnd'.
    { apply NoDup_cons. split; [|done]. intros Hin.
      specialize (Hlt _ Hin). lia. }
    split; [by eapply sub_NoDup|].
    intros b Hb. apply (sub_elem_of _ _ _ Hsub) in Hb.
    apply elem_of_cons in Hb as [->|Hb]; [lia|].
    specialize (Hlt _ Hb). lia.
Qed.

(** X18.  No buffer of the pool is in two places: in every reachable
    state the buffers in the pool, in the hand of the listener and in the
    channels are pairwise different, and each has been handed out by
    [bufPool.Get] before. *)
Theorem buffers_never_shared (tgt : bytes) (s : state) :
  reachable tgt s →
  NoDup (pool s ++ lis_bufs (lis s) ++ inbox_bufs (sessions s))
  ∧ Forall (λ b, b < fresh s)
           (pool s ++ lis_bufs (lis s) ++ inbox_bufs (sessions s)).
Proof.
  intros [tr Hrun]. change (buffers_ok s).
  assert (buffers_ok init) as Hinit.
  { split; [apply NoDup_nil_2|apply Forall_nil_2]. }
  revert Hrun Hinit. generalize init. induction tr as [|a tr IH];
    intros s0 Hrun H0; simplify_eq/=; [done|].
  destruct (step tgt a s0) as [s1|] eqn:Hstep; simplify_eq/=.
  eapply IH; [done|]. by eapply buffers_ok_step.
Qed.

Lemma buffers_never_shared_example :
  NoDup (pool relay_backlog_state ++ lis_bufs (lis relay_backlog_state)
         ++ inbox_bufs (sessions relay_backlog_state))
  ∧ Forall (λ b, b < fresh relay_backlog_state)
           (pool relay_backlog_state ++ lis_bufs (lis relay_backlog_state)
            ++ inbox_bufs (sessions relay_backlog_state)).
Proof.
  apply (buffers_never_shared [] relay_backlog_state).
  apply relay_backlog_reachable.
Defined.

End RelayFurther.
